(** * SphereBucket: stacking of spheres in a bucket (phetcommon, js/model/SphereBucket.js)

    A shallow embedding of the bucket model and of the part of its
    collaborators (DOT's Vector2, AXON's Property, the particles) that the
    bucket's code calls.

    Numbers.  The JavaScript code computes on doubles.  Here every number is
    an exact rational ([Q]); the literals 0.866 and 0.4 are 433/500 and 2/5.
    [Vector2.distance] is the square root of [Vector2.distanceSquared]; the
    code only ever compares distances, and the square root is strictly
    increasing on non-negative numbers, so a comparison of two distances is
    modelled as the comparison of the squared distances.  Rounding errors of
    the doubles are outside the model.

    Objects.  Particles are mutable objects shared by reference: the world
    holds a heap from particle identities to their fields, and the bucket's
    [_particles] array is a list of identities (the same identity can occur
    more than once).  A removal listener is a closure: it has an identity of
    its own and remembers the particle it was created for. *)

From Stdlib Require Import ZArith QArith Qround Qabs List Bool Lia Lqa.
Import ListNotations.

Open Scope Q_scope.

(** ** Numbers *)

Definition Qltb (a b : Q) : bool := negb (Qle_bool b a).

(** [Math.floor] and [Math.round] (which rounds halves upwards). *)
Definition Math_floor (v : Q) : Z := Qfloor v.
Definition Math_round (v : Q) : Z := Qfloor (v + (1 # 2)).

(** DOT's [Util.roundSymmetric]:
    [( ( value < 0 ) ? -1 : 1 ) * Math.round( Math.abs( value ) )]. *)
Definition roundSymmetric (value : Q) : Z :=
  ((if Qltb value 0 then -1 else 1) * Math_round (Qabs value))%Z.

(** ** DOT's Vector2 *)

Module Vector2.

Record t : Set := mk { x : Q; y : Q }.

Definition ZERO : t := mk 0 0.

(** [equals]: both components are equal numbers. *)
Definition equals (a b : t) : bool :=
  Qeq_bool (x a) (x b) && Qeq_bool (y a) (y b).

Definition distanceSquared (a point : t) : Q :=
  let dx := x a - x point in
  let dy := y a - y point in
  dx * dx + dy * dy.

(** [a.distance( p ) < b.distance( p )] *)
Definition closer (a b p : t) : bool :=
  Qltb (distanceSquared a p) (distanceSquared b p).

(** [a.distance( p ) < s] for a number [s] *)
Definition within (a p : t) (s : Q) : bool :=
  Qltb 0 s && Qltb (distanceSquared a p) (s * s).

End Vector2.

(** ** Particles and listeners *)

Definition ParticleId := nat.

(** The closure [particleRemovedListener] made by one call of [addParticle]. *)
Record Listener : Set := mkListener { closureId : nat; captured : ParticleId }.

Definition Listener_eqb (a b : Listener) : bool :=
  Nat.eqb (closureId a) (closureId b) && Nat.eqb (captured a) (captured b).

(** What the bucket uses of a particle: three properties, the listeners
    linked to [userControlledProperty], and the field [bucketRemovalListener]
    that the bucket attaches to the particle. *)
Record Particle : Type := mkParticle {
  positionProperty : Vector2.t;
  destinationProperty : Vector2.t;
  userControlledProperty : bool;
  userControlledListeners : list Listener;
  bucketRemovalListener : option Listener
}.

(** ** The bucket *)

(** Modelled from the spec: the base type Bucket (PHETCOMMON/model/Bucket),
    whose source is not at hand, supplies the constant [position] (the
    origin of the container) and [size.width]; SphereBucket reads nothing
    else of it.  The other three fields are set by the constructor of
    SphereBucket; none of the five changes afterwards. *)
Record Geometry : Set := mkGeometry {
  position : Vector2.t;
  size_width : Q;
  _sphereRadius : Q;
  _usableWidthProportion : Q;
  _verticalParticleOffset : Q
}.

Record Options : Set := mkOptions {
  opt_position : Vector2.t;
  opt_width : Q;
  opt_sphereRadius : option Q;
  opt_usableWidthProportion : option Q;
  opt_verticalParticleOffset : option Q
}.

(** [a || b] on an optional number: [undefined] and 0 are falsy. *)
Definition or_default (a : option Q) (b : Q) : Q :=
  match a with
  | Some v => if Qeq_bool v 0 then b else v
  | None => b
  end.

Definition extend (a : option Q) (default : Q) : Q :=
  match a with Some v => v | None => default end.

(** The constructor. *)
Definition SphereBucket (options : Options) : Geometry :=
  let sphereRadius := extend (opt_sphereRadius options) 10 in
  let usableWidthProportion := extend (opt_usableWidthProportion options) 1 in
  mkGeometry (opt_position options) (opt_width options)
    sphereRadius usableWidthProportion
    (or_default (opt_verticalParticleOffset options) (- sphereRadius * (2 # 5))).

(** The mutations the code performs, in the order it performs them. *)
Inductive Event : Type :=
| EvParticles (l : list ParticleId)
| EvPosition (p : ParticleId) (v : Vector2.t)
| EvDestination (p : ParticleId) (v : Vector2.t)
| EvUserControlled (p : ParticleId) (v : bool)
| EvLink (p : ParticleId) (l : Listener)
| EvUnlink (p : ParticleId) (l : Listener)
| EvAttach (p : ParticleId) (l : Listener)
| EvDelete (p : ParticleId).

(** The bucket with its array of particles, the particles it can refer to,
    the number of closures made so far, whether [assert] is defined (it is
    in development builds) and the mutations so far, the latest first. *)
Record World : Type := mkWorld {
  self : Geometry;
  _particles : list ParticleId;
  heap : ParticleId -> Particle;
  closures : nat;
  assertEnabled : bool;
  log : list Event
}.

Definition trace (w : World) : list Event := rev (log w).

Inductive outcome (A : Type) : Type :=
| Returned (a : A)
| AssertionFailed
| OutOfFuel.
Arguments Returned {A} a.
Arguments AssertionFailed {A}.
Arguments OutOfFuel {A}.

Definition bind {A B} (m : outcome A) (k : A -> outcome B) : outcome B :=
  match m with
  | Returned a => k a
  | AssertionFailed => AssertionFailed
  | OutOfFuel => OutOfFuel
  end.

Notation "x <- m ;; k" := (bind m (fun x => k))
  (at level 61, m at next level, right associativity).

(** ** Primitive mutations *)

Definition emit (e : Event) (w : World) : World :=
  mkWorld (self w) (_particles w) (heap w) (closures w) (assertEnabled w) (e :: log w).

Definition update (p : ParticleId) (f : Particle -> Particle) (w : World) : World :=
  mkWorld (self w) (_particles w)
    (fun q => if Nat.eqb q p then f (heap w p) else heap w q)
    (closures w) (assertEnabled w) (log w).

Definition set_particles (l : list ParticleId) (w : World) : World :=
  emit (EvParticles l)
    (mkWorld (self w) l (heap w) (closures w) (assertEnabled w) (log w)).

Definition positionProperty_set (p : ParticleId) (v : Vector2.t) (w : World) : World :=
  emit (EvPosition p v)
    (update p (fun o => mkParticle v (destinationProperty o) (userControlledProperty o)
                          (userControlledListeners o) (bucketRemovalListener o)) w).

Definition destinationProperty_set (p : ParticleId) (v : Vector2.t) (w : World) : World :=
  emit (EvDestination p v)
    (update p (fun o => mkParticle (positionProperty o) v (userControlledProperty o)
                          (userControlledListeners o) (bucketRemovalListener o)) w).

(** [lazyLink] adds the listener without calling it. *)
Definition userControlledProperty_lazyLink (p : ParticleId) (l : Listener) (w : World) : World :=
  emit (EvLink p l)
    (update p (fun o => mkParticle (positionProperty o) (destinationProperty o)
                          (userControlledProperty o)
                          (userControlledListeners o ++ [l]) (bucketRemovalListener o)) w).

Definition userControlledProperty_unlink (p : ParticleId) (l : Listener) (w : World) : World :=
  emit (EvUnlink p l)
    (update p (fun o => mkParticle (positionProperty o) (destinationProperty o)
                          (userControlledProperty o)
                          (filter (fun l' => negb (Listener_eqb l' l)) (userControlledListeners o))
                          (bucketRemovalListener o)) w).

Definition set_bucketRemovalListener (p : ParticleId) (l : option Listener) (w : World) : World :=
  emit (match l with Some l' => EvAttach p l' | None => EvDelete p end)
    (update p (fun o => mkParticle (positionProperty o) (destinationProperty o)
                          (userControlledProperty o) (userControlledListeners o) l) w).

Definition new_closure (p : ParticleId) (w : World) : Listener * World :=
  (mkListener (closures w) p,
   mkWorld (self w) (_particles w) (heap w) (S (closures w)) (assertEnabled w) (log w)).

Definition destination (w : World) (p : ParticleId) : Vector2.t :=
  destinationProperty (heap w p).

(** ** The methods of SphereBucket *)

Definition containsParticle (w : World) (particle : ParticleId) : bool :=
  existsb (Nat.eqb particle) (_particles w).

(** [_.without( array, value )] *)
Definition without (l : list ParticleId) (particle : ParticleId) : list ParticleId :=
  filter (fun q => negb (Nat.eqb q particle)) l.

Fixpoint isPositionOpen_for (w : World) (position : Vector2.t) (l : list ParticleId) : bool :=
  match l with
  | [] => true
  | particle :: rest =>
      if Vector2.equals (destination w particle) position then false
      else isPositionOpen_for w position rest
  end.

Definition isPositionOpen (w : World) (position : Vector2.t) : bool :=
  isPositionOpen_for w position (_particles w).

Definition getYPositionForLayer (g : Geometry) (layer : Z) : Q :=
  Vector2.y (position g) + _verticalParticleOffset g
  + inject_Z layer * _sphereRadius g * 2 * (433 # 500).

Definition getLayerForYPosition (g : Geometry) (yPosition : Q) : Z :=
  Z.abs (roundSymmetric
           ((yPosition - (Vector2.y (position g) + _verticalParticleOffset g))
            / (_sphereRadius g * 2 * (433 # 500)))).

Definition usableWidth (g : Geometry) : Q :=
  size_width g * _usableWidthProportion g - 2 * _sphereRadius g.

Definition initialOffsetFromBucketEdge (g : Geometry) : Q :=
  (size_width g - usableWidth g) / 2 + _sphereRadius g.

Definition initialNumParticlesInLayer (g : Geometry) : Z :=
  Math_floor (usableWidth g / (_sphereRadius g * 2)).

(** The coordinate tested by both searches. *)
Definition slotLocation (g : Geometry) (offsetFromBucketEdge : Q) (layer positionInLayer : Z)
  : Vector2.t :=
  Vector2.mk
    (Vector2.x (position g) - size_width g / 2 + offsetFromBucketEdge
     + inject_Z positionInLayer * 2 * _sphereRadius g)
    (getYPositionForLayer g layer).

(** The [while ( !found )] loop of [getFirstOpenLocation]; one unit of fuel
    per iteration. *)
Fixpoint getFirstOpenLocation_while (fuel : nat) (w : World)
    (offsetFromBucketEdge : Q) (numParticlesInLayer row positionInLayer : Z)
  : option Vector2.t :=
  match fuel with
  | O => None
  | S fuel' =>
      let testLocation := slotLocation (self w) offsetFromBucketEdge row positionInLayer in
      if isPositionOpen w testLocation then Some testLocation
      else
        let positionInLayer := (positionInLayer + 1)%Z in
        if (positionInLayer >=? numParticlesInLayer)%Z then
          let row := (row + 1)%Z in
          let numParticlesInLayer := (numParticlesInLayer - 1)%Z in
          let offsetFromBucketEdge := offsetFromBucketEdge + _sphereRadius (self w) in
          if (numParticlesInLayer =? 0)%Z then
            getFirstOpenLocation_while fuel' w
              (offsetFromBucketEdge - _sphereRadius (self w)) 1 row 0
          else
            getFirstOpenLocation_while fuel' w offsetFromBucketEdge numParticlesInLayer row 0
        else
          getFirstOpenLocation_while fuel' w offsetFromBucketEdge numParticlesInLayer
            row positionInLayer
  end.

Definition getFirstOpenLocation (fuel : nat) (w : World) : option Vector2.t :=
  getFirstOpenLocation_while fuel w
    (initialOffsetFromBucketEdge (self w)) (initialNumParticlesInLayer (self w)) 0 0.

Fixpoint countSupportingParticles_for (w : World) (position : Vector2.t)
    (l : list ParticleId) (count : nat) : nat :=
  match l with
  | [] => count
  | p :: rest =>
      if Qltb (Vector2.y (destination w p)) (Vector2.y position)
         && Vector2.within (destination w p) position (_sphereRadius (self w) * 3)
      then countSupportingParticles_for w position rest (S count)
      else countSupportingParticles_for w position rest count
  end.

Definition countSupportingParticles (w : World) (position : Vector2.t) : nat :=
  countSupportingParticles_for w position (_particles w) 0.

Definition isDangling (w : World) (particle : ParticleId) : bool :=
  let onBottomRow :=
    Qeq_bool (Vector2.y (destination w particle))
             (Vector2.y (position (self w)) + _verticalParticleOffset (self w)) in
  negb onBottomRow
  && (countSupportingParticles w (destination w particle) <? 2)%nat.

(** The first [_.each] of [getNearestOpenLocation]. *)
Fixpoint highestOccupiedLayer_each (w : World) (l : list ParticleId)
    (highestOccupiedLayer : Z) : Z :=
  match l with
  | [] => highestOccupiedLayer
  | particle :: rest =>
      let layer := getLayerForYPosition (self w) (Vector2.y (destination w particle)) in
      highestOccupiedLayer_each w rest
        (if (layer >? highestOccupiedLayer)%Z then layer else highestOccupiedLayer)
  end.

Definition highestOccupiedLayer (w : World) : Z :=
  highestOccupiedLayer_each w (_particles w) 0.

(** The inner [for] loop: [todo] slots are left in the layer, the next one is
    [positionInLayer]. *)
Fixpoint openLocations_inLayer (w : World) (offsetFromBucketEdge : Q) (layer : Z)
    (todo : nat) (positionInLayer : Z) (openLocations : list Vector2.t) : list Vector2.t :=
  match todo with
  | O => openLocations
  | S todo' =>
      let testPosition := slotLocation (self w) offsetFromBucketEdge layer positionInLayer in
      let openLocations :=
        if isPositionOpen w testPosition then
          if (layer =? 0)%Z || Nat.eqb (countSupportingParticles w testPosition) 2
          then openLocations ++ [testPosition]
          else openLocations
        else openLocations in
      openLocations_inLayer w offsetFromBucketEdge layer todo' (positionInLayer + 1)
        openLocations
  end.

(** The outer [for] loop: [todo] layers are left, the next one is [layer]. *)
Fixpoint openLocations_layers (w : World) (todo : nat) (layer : Z)
    (offsetFromBucketEdge : Q) (numParticlesInLayer : Z) (openLocations : list Vector2.t)
  : list Vector2.t :=
  match todo with
  | O => openLocations
  | S todo' =>
      let openLocations :=
        openLocations_inLayer w offsetFromBucketEdge layer
          (Z.to_nat numParticlesInLayer) 0 openLocations in
      let numParticlesInLayer := (numParticlesInLayer - 1)%Z in
      let offsetFromBucketEdge := offsetFromBucketEdge + _sphereRadius (self w) in
      if (numParticlesInLayer =? 0)%Z then
        openLocations_layers w todo' (layer + 1)
          (offsetFromBucketEdge - _sphereRadius (self w)) 1 openLocations
      else
        openLocations_layers w todo' (layer + 1) offsetFromBucketEdge numParticlesInLayer
          openLocations
  end.

(** The list [openLocations] when the loops are over: the layers 0 to
    [highestOccupiedLayer + 1] have been searched. *)
Definition openLocations (w : World) : list Vector2.t :=
  openLocations_layers w (Z.to_nat (highestOccupiedLayer w + 2)) 0
    (initialOffsetFromBucketEdge (self w)) (initialNumParticlesInLayer (self w)) [].

(** The last [_.each] of [getNearestOpenLocation]. *)
Fixpoint closestOpenLocation_each (position : Vector2.t) (l : list Vector2.t)
    (closestOpenLocation : Vector2.t) : Vector2.t :=
  match l with
  | [] => closestOpenLocation
  | location :: rest =>
      closestOpenLocation_each position rest
        (if Vector2.closer location closestOpenLocation position
         then location else closestOpenLocation)
  end.

Definition getNearestOpenLocation (w : World) (position : Vector2.t) : Vector2.t :=
  let openLocations := openLocations w in
  let closestOpenLocation :=
    match openLocations with
    | first :: _ => first
    | [] => Vector2.ZERO
    end in
  closestOpenLocation_each position openLocations closestOpenLocation.

(** The [for] loop of [relayoutBucketParticles]: the first dangling particle,
    if there is one. *)
Fixpoint relayout_for (w : World) (l : list ParticleId) : option ParticleId :=
  match l with
  | [] => None
  | particle :: rest =>
      if isDangling w particle then Some particle else relayout_for w rest
  end.

(** The [do ... while ( particleMoved )] loop; one unit of fuel per pass. *)
Fixpoint relayoutBucketParticles (fuel : nat) (w : World) : outcome World :=
  match fuel with
  | O => OutOfFuel
  | S fuel' =>
      match relayout_for w (_particles w) with
      | Some particle =>
          relayoutBucketParticles fuel'
            (destinationProperty_set particle
               (getNearestOpenLocation w (destination w particle)) w)
      | None => Returned w
      end
  end.

Definition removeParticle (fuel : nat) (particle : ParticleId) (skipLayout : bool)
    (w : World) : outcome World :=
  if assertEnabled w && negb (containsParticle w particle) then AssertionFailed
  else
    let w := set_particles (without (_particles w) particle) w in
    let w :=
      match bucketRemovalListener (heap w particle) with
      | Some l =>
          set_bucketRemovalListener particle None
            (userControlledProperty_unlink particle l w)
      | None => w
      end in
    if negb skipLayout then relayoutBucketParticles fuel w else Returned w.

(** The closure installed by [addParticle], called with the world of the
    moment. *)
Definition particleRemovedListener (fuel : nat) (l : Listener) (w : World) : outcome World :=
  w <- removeParticle fuel (captured l) false w ;;
  match bucketRemovalListener (heap w (captured l)) with
  | Some _ => if assertEnabled w then AssertionFailed else Returned w
  | None => Returned w
  end.

(** AXON's [Property.set]: nothing happens when the value is unchanged;
    otherwise the listeners linked at that moment are called in turn. *)
Fixpoint notifyListeners (fuel : nat) (ls : list Listener) (w : World) : outcome World :=
  match ls with
  | [] => Returned w
  | l :: rest =>
      w <- particleRemovedListener fuel l w ;;
      notifyListeners fuel rest w
  end.

Definition userControlledProperty_set (fuel : nat) (p : ParticleId) (v : bool) (w : World)
  : outcome World :=
  if Bool.eqb (userControlledProperty (heap w p)) v then Returned w
  else
    let listeners := userControlledListeners (heap w p) in
    let w :=
      emit (EvUserControlled p v)
        (update p (fun o => mkParticle (positionProperty o) (destinationProperty o) v
                              (userControlledListeners o) (bucketRemovalListener o)) w) in
    notifyListeners fuel listeners w.

Definition addParticle (particle : ParticleId) (animate : bool) (w : World) : World :=
  let w :=
    if negb animate then positionProperty_set particle (destination w particle) w
    else w in
  let w := set_particles (_particles w ++ [particle]) w in
  let '(particleRemovedListener, w) := new_closure particle w in
  let w := userControlledProperty_lazyLink particle particleRemovedListener w in
  set_bucketRemovalListener particle (Some particleRemovedListener) w.

Definition addParticleFirstOpen (fuel : nat) (particle : ParticleId) (animate : bool)
    (w : World) : outcome World :=
  match getFirstOpenLocation fuel w with
  | Some location =>
      Returned (addParticle particle animate (destinationProperty_set particle location w))
  | None => OutOfFuel
  end.

Definition addParticleNearestOpen (particle : ParticleId) (animate : bool) (w : World) : World :=
  addParticle particle animate
    (destinationProperty_set particle
       (getNearestOpenLocation w (destination w particle)) w).

(** The [forEach] of [extractClosestParticle]. *)
Fixpoint closestParticle_forEach (w : World) (location : Vector2.t) (l : list ParticleId)
    (closestParticle : option ParticleId) : option ParticleId :=
  match l with
  | [] => closestParticle
  | particle :: rest =>
      closestParticle_forEach w location rest
        (match closestParticle with
         | None => Some particle
         | Some c =>
             if Vector2.closer (positionProperty (heap w particle))
                               (positionProperty (heap w c)) location
             then Some particle else Some c
         end)
  end.

Definition closestParticle (w : World) (location : Vector2.t) : option ParticleId :=
  closestParticle_forEach w location (_particles w) None.

Definition extractClosestParticle (fuel : nat) (location : Vector2.t) (w : World)
  : outcome (option ParticleId * World) :=
  match closestParticle w location with
  | Some c =>
      w <- userControlledProperty_set fuel c true w ;;
      Returned (Some c, w)
  | None => Returned (None, w)
  end.

Definition getParticleList (w : World) : list ParticleId := _particles w.

(** [reset]: every listener still attached is unlinked, the array is
    emptied in place. *)
Fixpoint reset_forEach (l : list ParticleId) (w : World) : World :=
  match l with
  | [] => w
  | particle :: rest =>
      reset_forEach rest
        (match bucketRemovalListener (heap w particle) with
         | Some l =>
             set_bucketRemovalListener particle None
               (userControlledProperty_unlink particle l w)
         | None => w
         end)
  end.

Definition reset (w : World) : World :=
  set_particles [] (reset_forEach (_particles w) w).

(** ** Worlds to run the code on *)

Definition blank : Particle := mkParticle Vector2.ZERO Vector2.ZERO false [] None.

(** A bucket that holds nothing yet; [particles] gives the particles that
    exist beside it. *)
Definition newWorld (g : Geometry) (particles : ParticleId -> Particle) (assertions : bool)
  : World :=
  mkWorld g [] particles 0 assertions [].

(** What holds after a call, if it returned. *)
Definition after {A} (o : outcome A) (P : A -> Prop) : Prop :=
  match o with
  | Returned a => P a
  | _ => False
  end.

(** ** Vocabulary of the properties *)

(** [a] comes before [b] when the slots are read layer by layer upwards and
    from left to right in a layer. *)
Definition before (a b : Vector2.t) : Prop :=
  Vector2.y a < Vector2.y b \/ (Vector2.y a == Vector2.y b /\ Vector2.x a < Vector2.x b).

Definition beforeb (a b : Vector2.t) : bool :=
  Qltb (Vector2.y a) (Vector2.y b)
  || (Qeq_bool (Vector2.y a) (Vector2.y b) && Qltb (Vector2.x a) (Vector2.x b)).

(** The members whose destination is not before [loc]. *)
Definition remaining (w : World) (loc : Vector2.t) (l : list ParticleId) : nat :=
  length (filter (fun p => negb (beforeb (destination w p) loc)) l).

(** The block "adjust variables for the next layer", which both searches
    contain: from the offset and the number of slots of a layer to those of
    the layer above. *)
Definition nextLayer (g : Geometry) (s : Q * Z) : Q * Z :=
  let numParticlesInLayer := (snd s - 1)%Z in
  let offsetFromBucketEdge := fst s + _sphereRadius g in
  if (numParticlesInLayer =? 0)%Z then (offsetFromBucketEdge - _sphereRadius g, 1%Z)
  else (offsetFromBucketEdge, numParticlesInLayer).

Fixpoint layerShape (g : Geometry) (layer : nat) : Q * Z :=
  match layer with
  | O => (initialOffsetFromBucketEdge g, initialNumParticlesInLayer g)
  | S below => nextLayer g (layerShape g below)
  end.

(** Slot [j] of a layer. *)
Definition slot (g : Geometry) (layer : nat) (j : Z) : Vector2.t :=
  slotLocation g (fst (layerShape g layer)) (Z.of_nat layer) j.

Definition layerSize (g : Geometry) (layer : nat) : Z := snd (layerShape g layer).

(** The test [layer === 0 || this.countSupportingParticles( testPosition ) === 2]. *)
Definition admissible (w : World) (layer : Z) (testPosition : Vector2.t) : bool :=
  (layer =? 0)%Z || Nat.eqb (countSupportingParticles w testPosition) 2.

(** The world when [removeParticle] has taken the particle out of the array
    and has unlinked its listener: what is left to do is the relayout. *)
Definition evicted (particle : ParticleId) (w : World) : World :=
  let w := set_particles (without (_particles w) particle) w in
  match bucketRemovalListener (heap w particle) with
  | Some l =>
      set_bucketRemovalListener particle None (userControlledProperty_unlink particle l w)
  | None => w
  end.

(** A write of a destination. *)
Definition isMove (e : Event) : Prop := exists q v, e = EvDestination q v.

(** The squared distance from the current position of a particle. *)
Definition distanceSquaredFrom (w : World) (location : Vector2.t) (p : ParticleId) : Q :=
  Vector2.distanceSquared (positionProperty (heap w p)) location.

(** The world [w'] is [w] with the member [p] added once more: [p] occurs
    once more in the array, at least twice, and the listener stored on [p]
    is a new closure, not [previous], which stays linked if it was. *)
Definition addedTwice (p : ParticleId) (previous : Listener) (w w' : World) : Prop :=
  count_occ Nat.eq_dec (_particles w') p = S (count_occ Nat.eq_dec (_particles w) p)
  /\ (2 <= count_occ Nat.eq_dec (_particles w') p)%nat
  /\ bucketRemovalListener (heap w' p) = Some (mkListener (closures w) p)
  /\ mkListener (closures w) p <> previous
  /\ (In previous (userControlledListeners (heap w p)) ->
      In previous (userControlledListeners (heap w' p))).

(** No member is dangling. *)
Definition noDangling (w : World) : Prop :=
  forall p, In p (_particles w) -> isDangling w p = false.

(** Slot [k'] of layer [row'] is tested by [getFirstOpenLocation] before slot
    [k] of layer [row]. *)
Definition testedBefore (g : Geometry) (row : nat) (k : Z) (row' : nat) (k' : Z) : Prop :=
  (0 <= k')%Z
  /\ ((row' < row)%nat /\ (k' < layerSize g row')%Z \/ row' = row /\ (k' < k)%Z).

(** One call on the bucket that keeps within the pyramid: an addition of a
    sphere that is not a member yet, which gets a slot below the apex
    ([addParticleFirstOpen]) or for which there is an admissible open slot
    ([addParticleNearestOpen]), or a removal with relayout. *)
Inductive operation : World -> World -> Prop :=
| op_addParticleFirstOpen w fuel particle animate w' (layer : nat) (j : Z) :
    ~ In particle (_particles w) ->
    addParticleFirstOpen fuel particle animate w = Returned w' ->
    destination w' particle = slot (self w) layer j ->
    (Z.of_nat layer < initialNumParticlesInLayer (self w))%Z ->
    operation w w'
| op_addParticleNearestOpen w particle animate :
    ~ In particle (_particles w) ->
    openLocations w <> [] ->
    operation w (addParticleNearestOpen particle animate w)
| op_removeParticle w fuel particle w' :
    removeParticle fuel particle false w = Returned w' ->
    operation w w'.


(** ** Scenarios *)

(** The bucket of the default options, 100 wide, at the origin. *)
Definition bucket100 : Geometry := SphereBucket (mkOptions (Vector2.mk 0 0) 100 None None None).

(** A bucket whose bottom layer has one slot. *)
Definition bucket40 : Geometry := SphereBucket (mkOptions (Vector2.mk 0 0) 40 None None None).

(** The same bucket away from the origin of the coordinates. *)
Definition bucket40_at_5_5 : Geometry :=
  SphereBucket (mkOptions (Vector2.mk 5 5) 40 None None None).

(** [addParticleFirstOpen( particle, animate )] for each particle in turn. *)
Fixpoint addAllFirstOpen (fuel : nat) (animate : bool) (l : list ParticleId) (w : World)
  : outcome World :=
  match l with
  | [] => Returned w
  | particle :: rest =>
      w <- addParticleFirstOpen fuel particle animate w ;;
      addAllFirstOpen fuel animate rest w
  end.

(** The world a call returned, [w] if it did not return. *)
Definition returned (o : outcome World) (w : World) : World :=
  match o with
  | Returned w' => w'
  | _ => w
  end.

Definition emptyWorld (g : Geometry) : World := newWorld g (fun _ => blank) true.

(** Five spheres in the bucket of width 100: four in the bottom layer, the
    fifth on the first two. *)
Definition pyramid5 : World :=
  returned (addAllFirstOpen 6 false [1; 2; 3; 4; 5]%nat (emptyWorld bucket100))
    (emptyWorld bucket100).

Definition pyramid5_without_1 : World :=
  returned (removeParticle 3 1%nat false pyramid5) pyramid5.


Definition threeInBase : World :=
  returned (addAllFirstOpen 4 false [1; 2; 3]%nat (emptyWorld bucket100)) (emptyWorld bucket100).

(** Following the spec's words: the slots of the layer directly below
    [layer] that are occupied and within lateral range [3 * sphereRadius] of
    [location]. *)
Definition occupiedSupportingSlots_spec (w : World) (layer : nat) (location : Vector2.t)
  : list Z :=
  let below := (layer - 1)%nat in
  filter (fun j =>
            negb (isPositionOpen w (slot (self w) below j))
            && Qltb (Qabs (Vector2.x (slot (self w) below j) - Vector2.x location))
                    (3 * _sphereRadius (self w)))
    (map Z.of_nat (seq 0 (Z.to_nat (layerSize (self w) below)))).

(** The members that [countSupportingParticles] counts. *)
Definition supports (w : World) (position : Vector2.t) (p : ParticleId) : bool :=
  Qltb (Vector2.y (destination w p)) (Vector2.y position)
  && Vector2.within (destination w p) position (_sphereRadius (self w) * 3).

(** Sphere 1 added twice, then sphere 2. *)
Definition sameSphereTwice : World :=
  returned (addAllFirstOpen 4 false [1; 1; 2]%nat (emptyWorld bucket100)) (emptyWorld bucket100).

(** One sphere in the one-slot bucket away from the origin. *)
Definition fullSingle : World :=
  returned (addAllFirstOpen 2 false [1]%nat (emptyWorld bucket40_at_5_5))
    (emptyWorld bucket40_at_5_5).

(** One sphere in the bucket of width 100. *)
Definition single : World :=
  returned (addAllFirstOpen 2 false [1]%nat (emptyWorld bucket100)) (emptyWorld bucket100).

(** A slot by its indices: the offset of its layer from the edge of the
    bucket, its layer and its place in the layer. *)
Definition Slot : Set := (Q * Z * Z)%type.

Definition place (g : Geometry) (s : Slot) : Vector2.t :=
  slotLocation g (fst (fst s)) (snd (fst s)) (snd s).

Definition sameSlot (r : Q) (a b : Slot) : bool :=
  Qeq_bool (fst (fst a) + inject_Z (snd a) * 2 * r) (fst (fst b) + inject_Z (snd b) * 2 * r)
  && Qeq_bool (inject_Z (snd (fst a)) * r * 2 * (433 # 500))
              (inject_Z (snd (fst b)) * r * 2 * (433 # 500)).

(** [a] supports [b], by the test of [countSupportingParticles]. *)
Definition slotSupports (r : Q) (b a : Slot) : bool :=
  let xa := fst (fst a) + inject_Z (snd a) * 2 * r in
  let xb := fst (fst b) + inject_Z (snd b) * 2 * r in
  let ya := inject_Z (snd (fst a)) * r * 2 * (433 # 500) in
  let yb := inject_Z (snd (fst b)) * r * 2 * (433 # 500) in
  Qltb ya yb
  && (Qltb 0 (r * 3)
      && Qltb ((xa - xb) * (xa - xb) + (ya - yb) * (ya - yb)) ((r * 3) * (r * 3))).

(** The members of the bucket are the particles of [l], in this order, each
    with the slot of [l] as its destination. *)
Definition placed (w : World) (l : list (ParticleId * Slot)) : Prop :=
  _particles w = map fst l
  /\ Forall (fun ps => destination w (fst ps) = place (self w) (snd ps)) l.

(** The loop of [getFirstOpenLocation] on the indices of the slots. *)
Fixpoint firstOpenSlot (r : Q) (occupied : list Slot) (fuel : nat)
    (offsetFromBucketEdge : Q) (numParticlesInLayer row positionInLayer : Z) : option Slot :=
  match fuel with
  | O => None
  | S fuel' =>
      let test := (offsetFromBucketEdge, row, positionInLayer) in
      if forallb (fun s => negb (sameSlot r s test)) occupied then Some test
      else
        let positionInLayer := (positionInLayer + 1)%Z in
        if (positionInLayer >=? numParticlesInLayer)%Z then
          let row := (row + 1)%Z in
          let numParticlesInLayer := (numParticlesInLayer - 1)%Z in
          let offsetFromBucketEdge := offsetFromBucketEdge + r in
          if (numParticlesInLayer =? 0)%Z then
            firstOpenSlot r occupied fuel' (offsetFromBucketEdge - r) 1 row 0
          else firstOpenSlot r occupied fuel' offsetFromBucketEdge numParticlesInLayer row 0
        else firstOpenSlot r occupied fuel' offsetFromBucketEdge numParticlesInLayer
               row positionInLayer
  end.

(** The bucket of the scenario, wherever it is: radius 10, all of the width
    100 usable. *)
Definition scenarioBucket (px py : Q) (verticalParticleOffset : option Q) : Geometry :=
  SphereBucket (mkOptions (Vector2.mk px py) 100 (Some 10) (Some 1) verticalParticleOffset).

(** Two worlds that the searches and the relayout cannot tell apart: the
    same bucket, the same members in the same order, the same destinations. *)
Definition sameBucket (w w' : World) : Prop :=
  self w = self w' /\ _particles w = _particles w'
  /\ forall p, destination w p = destination w' p.

(** Three spheres in the one-slot bucket, one on the other. *)
Definition tower : World :=
  returned (addAllFirstOpen 4 false [1; 2; 3]%nat (emptyWorld bucket40)) (emptyWorld bucket40).

(** ** Frames, distinct destinations and the pyramid *)

(** The height of one layer. *)
Definition layerStep (g : Geometry) : Q := _sphereRadius g * 2 * (433 # 500).

(** Everything of a particle but its destination. *)
Definition sameButDestination (a b : Particle) : Prop :=
  positionProperty a = positionProperty b
  /\ userControlledProperty a = userControlledProperty b
  /\ userControlledListeners a = userControlledListeners b
  /\ bucketRemovalListener a = bucketRemovalListener b.

(** The world when the member [c] has been grabbed: [userControlledProperty]
    is set and its listener has taken [c] out of the bucket; the relayout is
    still to run. *)
Definition grabbed (c : ParticleId) (w : World) : World :=
  evicted c
    (emit (EvUserControlled c true)
       (update c (fun o => mkParticle (positionProperty o) (destinationProperty o) true
                             (userControlledListeners o) (bucketRemovalListener o)) w)).

(** No two entries of the array of members have the same destination. *)
Fixpoint distinctDestinations_for (w : World) (l : list ParticleId) : Prop :=
  match l with
  | [] => True
  | p :: rest =>
      isPositionOpen_for w (destination w p) rest = true /\ distinctDestinations_for w rest
  end.

Definition distinctDestinations (w : World) : Prop :=
  distinctDestinations_for w (_particles w).

(** Every entry of [l] has a slot of the pyramid (a layer below the apex or
    the apex) as its destination. *)
Definition onPyramid (w : World) (l : list ParticleId) : Prop :=
  forall m, In m l ->
    exists (layer : nat) (k : Z),
      (Z.of_nat layer < initialNumParticlesInLayer (self w))%Z
      /\ destination w m = slot (self w) layer k.

(** Whether some entry of [l] has [loc] as its destination, as a number. *)
Definition occupiedIn (w : World) (loc : Vector2.t) (l : list ParticleId) : nat :=
  if isPositionOpen_for w loc l then 0 else 1.

(** A bucket too narrow for two spheres side by side. *)
Definition bucket30 : Geometry := SphereBucket (mkOptions (Vector2.mk 0 0) 30 None None None).

(** ** The stacked bucket *)








(** Position [k'] of layer [row'] is tested by [getFirstOpenLocation] before
    position [k] of layer [row]: in a layer of [n] slots the loop tests the
    positions 0 to [n - 1], and position 0 also when [n] is 0 or less. *)
Definition searchedBefore (g : Geometry) (row : nat) (k : Z) (row' : nat) (k' : Z) : Prop :=
  (0 <= k')%Z
  /\ ((row' < row)%nat /\ (k' < Z.max 1 (layerSize g row'))%Z \/ row' = row /\ (k' < k)%Z).



(** One sphere in the bucket that is too narrow for a slot. *)
Definition narrowSingle : World :=
  returned (addParticleFirstOpen 2 1%nat false (emptyWorld bucket30)) (emptyWorld bucket30).

(** * Properties *)

(** ** Comparisons *)

Lemma Qltb_lt a b : Qltb a b = true <-> a < b.
Proof.
  unfold Qltb. rewrite negb_true_iff. split; intro H.
  - apply Qnot_le_lt. intro C. apply Qle_bool_iff in C. congruence.
  - destruct (Qle_bool b a) eqn:E; [|reflexivity].
    apply Qle_bool_iff in E. exfalso. apply (Qlt_not_le _ _ H E).
Qed.

Lemma Qltb_ge a b : Qltb a b = false <-> b <= a.
Proof.
  unfold Qltb. rewrite negb_false_iff. apply Qle_bool_iff.
Qed.

Lemma Qeq_bool_eq_iff a b c d : (a == b <-> c == d) -> Qeq_bool a b = Qeq_bool c d.
Proof.
  intro H. apply eq_true_iff_eq. rewrite !Qeq_bool_iff. exact H.
Qed.

Lemma Qltb_eq_iff a b c d : (a < b <-> c < d) -> Qltb a b = Qltb c d.
Proof.
  intro H. apply eq_true_iff_eq. rewrite !Qltb_lt. exact H.
Qed.

Lemma equals_true a b :
  Vector2.equals a b = true <-> Vector2.x a == Vector2.x b /\ Vector2.y a == Vector2.y b.
Proof.
  unfold Vector2.equals. rewrite andb_true_iff, !Qeq_bool_iff. tauto.
Qed.

Lemma Listener_eqb_refl l : Listener_eqb l l = true.
Proof. unfold Listener_eqb. now rewrite !Nat.eqb_refl. Qed.

Lemma Listener_eqb_eq a b : Listener_eqb a b = true <-> a = b.
Proof.
  unfold Listener_eqb. rewrite andb_true_iff, !Nat.eqb_eq.
  destruct a, b; simpl. split; [intros [-> ->]; reflexivity|intros [= -> ->]; auto].
Qed.

(** ** What the mutations leave alone *)

Lemma addParticle_particles p a w :
  _particles (addParticle p a w) = _particles w ++ [p].
Proof. unfold addParticle. destruct a; reflexivity. Qed.

Lemma addParticle_self p a w : self (addParticle p a w) = self w.
Proof. unfold addParticle. destruct a; reflexivity. Qed.

(** A mutation of a field other than the destination: look the particle [q]
    up in the heap after the update of [p]. *)
Ltac same_destination q p :=
  unfold destination; cbn;
  let E := fresh "E" in
  destruct (Nat.eqb q p) eqn:E; [apply Nat.eqb_eq in E; subst|]; reflexivity.

Lemma positionProperty_set_destination p v w q :
  destination (positionProperty_set p v w) q = destination w q.
Proof. same_destination q p. Qed.

Lemma userControlledProperty_lazyLink_destination p l w q :
  destination (userControlledProperty_lazyLink p l w) q = destination w q.
Proof. same_destination q p. Qed.

Lemma userControlledProperty_unlink_destination p l w q :
  destination (userControlledProperty_unlink p l w) q = destination w q.
Proof. same_destination q p. Qed.

Lemma set_bucketRemovalListener_destination p l w q :
  destination (set_bucketRemovalListener p l w) q = destination w q.
Proof. same_destination q p. Qed.

Lemma addParticle_destination p a w q :
  destination (addParticle p a w) q = destination w q.
Proof.
  unfold addParticle, new_closure.
  rewrite set_bucketRemovalListener_destination, userControlledProperty_lazyLink_destination.
  destruct a; cbn [negb]; [reflexivity|].
  apply (positionProperty_set_destination p _ w q).
Qed.

Lemma destinationProperty_set_same p v w :
  destination (destinationProperty_set p v w) p = v.
Proof. unfold destination. cbn. now rewrite Nat.eqb_refl. Qed.

Lemma destinationProperty_set_other p v w q :
  q <> p -> destination (destinationProperty_set p v w) q = destination w q.
Proof.
  intro H. unfold destination. cbn. apply Nat.eqb_neq in H. now rewrite H.
Qed.

Lemma destinationProperty_set_listeners p v w q :
  userControlledListeners (heap (destinationProperty_set p v w) q)
  = userControlledListeners (heap w q)
  /\ bucketRemovalListener (heap (destinationProperty_set p v w) q)
     = bucketRemovalListener (heap w q).
Proof.
  cbn. destruct (Nat.eqb q p) eqn:E; [|auto].
  apply Nat.eqb_eq in E. subst. auto.
Qed.

Lemma containsParticle_In w p : containsParticle w p = true <-> In p (_particles w).
Proof.
  unfold containsParticle. rewrite existsb_exists. split.
  - intros [q [Hq E]]. apply Nat.eqb_eq in E. now subst.
  - intro H. exists p. split; [exact H|apply Nat.eqb_refl].
Qed.

Lemma without_In l p q : In q (without l p) <-> In q l /\ q <> p.
Proof.
  unfold without. rewrite filter_In, negb_true_iff, Nat.eqb_neq. tauto.
Qed.

Lemma evicted_particles p w : _particles (evicted p w) = without (_particles w) p.
Proof. unfold evicted. cbn. destruct (bucketRemovalListener (heap w p)); reflexivity. Qed.

Lemma evicted_destination p w q : destination (evicted p w) q = destination w q.
Proof.
  unfold evicted. cbn [set_particles emit heap].
  destruct (bucketRemovalListener (heap w p)); [|reflexivity].
  now rewrite set_bucketRemovalListener_destination, userControlledProperty_unlink_destination.
Qed.

Lemma evicted_listener p w : bucketRemovalListener (heap (evicted p w) p) = None.
Proof.
  unfold evicted. cbn [set_particles emit heap].
  destruct (bucketRemovalListener (heap w p)) eqn:E; [|exact E].
  cbn. now rewrite Nat.eqb_refl.
Qed.

Lemma evicted_unlinked p w l :
  bucketRemovalListener (heap w p) = Some l ->
  ~ In l (userControlledListeners (heap (evicted p w) p)).
Proof.
  intro E. unfold evicted. cbn [set_particles emit heap]. rewrite E.
  cbn. rewrite !Nat.eqb_refl. cbn. rewrite filter_In, Listener_eqb_refl.
  intros [_ H]. discriminate.
Qed.

Lemma removeParticle_member fuel particle skipLayout w :
  containsParticle w particle = true ->
  removeParticle fuel particle skipLayout w
  = if skipLayout then Returned (evicted particle w)
    else relayoutBucketParticles fuel (evicted particle w).
Proof.
  intro Hc. unfold removeParticle. rewrite Hc, andb_false_r.
  fold (evicted particle w). destruct skipLayout; reflexivity.
Qed.

(** ** The first open location

    The loop of [getFirstOpenLocation] tests the slots in a fixed order.  When
    the radius is positive each test is of a coordinate that comes after the
    ones tested before, so a member can make one test fail at most: the loop
    ends after at most one iteration for each member, and one more. *)

Lemma isPositionOpen_for_true w loc l :
  isPositionOpen_for w loc l = true <->
  forall p, In p l -> Vector2.equals (destination w p) loc = false.
Proof.
  induction l as [|q l IH]; simpl.
  - split; [intros _ p []|reflexivity].
  - destruct (Vector2.equals (destination w q) loc) eqn:E.
    + split; [discriminate|]. intro H. rewrite (H q) in E by now left. discriminate.
    + rewrite IH. split.
      * intros H p [<-|Hp]; auto.
      * intros H p Hp. apply H. now right.
Qed.

Lemma isPositionOpen_for_false w loc l :
  isPositionOpen_for w loc l = false ->
  exists p, In p l /\ Vector2.equals (destination w p) loc = true.
Proof.
  induction l as [|q l IH]; simpl; [discriminate|].
  destruct (Vector2.equals (destination w q) loc) eqn:E.
  - intros _. exists q. auto.
  - intro H. destruct (IH H) as [p [Hp Hq]]. exists p. auto.
Qed.

Section FirstOpen.
Variable w : World.
Hypothesis radius_positive : 0 < _sphereRadius (self w).

Lemma beforeb_before a b : beforeb a b = true <-> before a b.
Proof.
  unfold beforeb, before.
  rewrite orb_true_iff, andb_true_iff, !Qltb_lt, Qeq_bool_iff. tauto.
Qed.

Lemma remaining_decreases loc loc' l :
  before loc loc' ->
  (exists p, In p l /\ Vector2.equals (destination w p) loc = true) ->
  (remaining w loc' l < remaining w loc l)%nat.
Proof.
  intros Hlt. unfold remaining.
  assert (mono : forall p, beforeb (destination w p) loc = true ->
                           beforeb (destination w p) loc' = true).
  { intros p. rewrite !beforeb_before. unfold before in *. 
    intros [H|[H1 H2]]; destruct Hlt as [H'|[H1' H2']].
    - left. lra.
    - left. lra.
    - left. lra.
    - right. split; lra. }
  assert (le : forall l', (length (filter (fun p => negb (beforeb (destination w p) loc')) l')
                <= length (filter (fun p => negb (beforeb (destination w p) loc)) l'))%nat).
  { induction l' as [|q l' IH]; simpl; [lia|].
    destruct (beforeb (destination w q) loc) eqn:E.
    - rewrite (mono _ E). simpl. exact IH.
    - destruct (beforeb (destination w q) loc'); simpl; lia. }
  induction l as [|q l IH]; intros [p [Hin Heq]]; [destruct Hin|].
  simpl. destruct Hin as [->|Hin].
  - apply equals_true in Heq. destruct Heq as [Hx Hy].
    assert (E : beforeb (destination w p) loc = false).
    { destruct (beforeb (destination w p) loc) eqn:E; [|reflexivity].
      apply beforeb_before in E. unfold before in E. lra. }
    assert (E' : beforeb (destination w p) loc' = true).
    { apply beforeb_before. unfold before in *. destruct Hlt as [H|[H1 H2]].
      - left. lra.
      - right. split; lra. }
    rewrite E, E'. simpl. specialize (le l). lia.
  - assert (H : (length (filter (fun p => negb (beforeb (destination w p) loc')) l)
                < length (filter (fun p => negb (beforeb (destination w p) loc)) l))%nat)
      by (apply IH; eauto).
    destruct (beforeb (destination w q) loc) eqn:E.
    + rewrite (mono _ E). simpl. exact H.
    + destruct (beforeb (destination w q) loc'); simpl; lia.
Qed.

Lemma before_next_slot off row k :
  before (slotLocation (self w) off row k) (slotLocation (self w) off row (k + 1)).
Proof.
  right. unfold slotLocation. cbn [Vector2.x Vector2.y]. split; [reflexivity|].
  rewrite inject_Z_plus. change (inject_Z 1) with 1.
  set (a := inject_Z k). set (r := _sphereRadius (self w)) in *.
  assert (E : (a + 1) * 2 * r == a * 2 * r + 2 * r) by ring.
  rewrite E. lra.
Qed.

Lemma before_next_row off off' row k k' :
  before (slotLocation (self w) off row k) (slotLocation (self w) off' (row + 1) k').
Proof.
  left. unfold slotLocation, getYPositionForLayer. cbn [Vector2.x Vector2.y].
  rewrite inject_Z_plus. change (inject_Z 1) with 1.
  set (a := inject_Z row). set (r := _sphereRadius (self w)) in *.
  assert (E : (a + 1) * r * 2 * (433 # 500) == a * r * 2 * (433 # 500) + r * (433 # 250))
    by ring.
  rewrite E. lra.
Qed.

Lemma getFirstOpenLocation_while_terminates n : forall off num row k,
  (remaining w (slotLocation (self w) off row k) (_particles w) <= n)%nat ->
  exists loc, getFirstOpenLocation_while (S n) w off num row k = Some loc.
Proof.
  induction n as [|n IH]; intros off num row k Hn.
  - simpl. destruct (isPositionOpen w _) eqn:E; [eauto|].
    apply isPositionOpen_for_false in E.
    pose proof (remaining_decreases _ _ _ (before_next_slot off row k) E). lia.
  - cbn [getFirstOpenLocation_while].
    destruct (isPositionOpen w _) eqn:E; [eauto|].
    apply isPositionOpen_for_false in E.
    destruct (k + 1 >=? num)%Z.
    + destruct (num - 1 =? 0)%Z; apply IH;
        match goal with |- (remaining w (slotLocation _ ?o _ ?j) _ <= _)%nat =>
          pose proof (remaining_decreases _ _ _ (before_next_row off o row k j) E) end; lia.
    + apply IH.
      pose proof (remaining_decreases _ _ _ (before_next_slot off row k) E). lia.
Qed.
End FirstOpen.

Lemma getFirstOpenLocation_while_open fuel w : forall off num row k loc,
  getFirstOpenLocation_while fuel w off num row k = Some loc ->
  isPositionOpen w loc = true.
Proof.
  induction fuel as [|fuel IH]; intros off num row k loc; [discriminate|].
  cbn [getFirstOpenLocation_while].
  destruct (isPositionOpen w _) eqn:E.
  - intros [= <-]. exact E.
  - destruct (k + 1 >=? num)%Z; [destruct (num - 1 =? 0)%Z|]; apply IH.
Qed.

Lemma getFirstOpenLocation_terminates w :
  0 < _sphereRadius (self w) ->
  exists loc, getFirstOpenLocation (S (length (_particles w))) w = Some loc.
Proof.
  intro Hr. apply (getFirstOpenLocation_while_terminates w Hr).
  unfold remaining. apply filter_length_le.
Qed.

Lemma addParticleFirstOpen_returned fuel p a w w' :
  addParticleFirstOpen fuel p a w = Returned w' ->
  exists loc, getFirstOpenLocation fuel w = Some loc /\ isPositionOpen w loc = true
    /\ destination w' p = loc
    /\ _particles w' = _particles w ++ [p]
    /\ self w' = self w
    /\ forall q, q <> p -> destination w' q = destination w q.
Proof.
  unfold addParticleFirstOpen. destruct (getFirstOpenLocation fuel w) as [loc|] eqn:E;
    [|discriminate].
  intros [= <-]. exists loc. split; [reflexivity|]. split.
  - eapply getFirstOpenLocation_while_open. exact E.
  - rewrite addParticle_particles, addParticle_self. repeat split.
    + rewrite addParticle_destination. apply destinationProperty_set_same.
    + intros q Hq. rewrite addParticle_destination.
      now apply destinationProperty_set_other.
Qed.

(** C4: for a positive sphere radius and any state of the bucket, a call of
    [addParticleFirstOpen] followed at once by a second one returns both
    times, and the destination given by the second call differs from the one
    given by the first (whether or not the two calls are for the same
    particle). *)
Theorem addParticleFirstOpen_twice_distinct (w : World) (p q : ParticleId) (a1 a2 : bool) :
  0 < _sphereRadius (self w) ->
  (exists fuel1 fuel2 w1 w2,
      addParticleFirstOpen fuel1 p a1 w = Returned w1
      /\ addParticleFirstOpen fuel2 q a2 w1 = Returned w2)
  /\ forall fuel1 fuel2 w1 w2,
      addParticleFirstOpen fuel1 p a1 w = Returned w1 ->
      addParticleFirstOpen fuel2 q a2 w1 = Returned w2 ->
      Vector2.equals (destination w1 p) (destination w2 q) = false.
Proof.
  intro Hr. split.
  - destruct (getFirstOpenLocation_terminates w Hr) as [loc1 H1].
    pose (w1 := addParticle p a1 (destinationProperty_set p loc1 w)).
    assert (Hr1 : 0 < _sphereRadius (self w1)) by (unfold w1; now rewrite addParticle_self).
    destruct (getFirstOpenLocation_terminates w1 Hr1) as [loc2 H2].
    exists (S (length (_particles w))), (S (length (_particles w1))), w1.
    eexists. unfold addParticleFirstOpen. rewrite H1. split; [reflexivity|].
    fold w1. rewrite H2. reflexivity.
  - intros fuel1 fuel2 w1 w2 H1 H2.
    apply addParticleFirstOpen_returned in H1.
    destruct H1 as (loc1 & _ & _ & Hd1 & Hp1 & _).
    apply addParticleFirstOpen_returned in H2.
    destruct H2 as (loc2 & _ & Ho2 & Hd2 & _).
    rewrite Hd2. unfold isPositionOpen in Ho2.
    rewrite isPositionOpen_for_true in Ho2. apply Ho2.
    rewrite Hp1. apply in_or_app. right. now left.
Qed.

Lemma addParticleFirstOpen_twice_distinct_witness :
  let w := newWorld bucket100 (fun _ => blank) true in
  (exists fuel1 fuel2 w1 w2,
      addParticleFirstOpen fuel1 1%nat false w = Returned w1
      /\ addParticleFirstOpen fuel2 2%nat false w1 = Returned w2)
  /\ forall fuel1 fuel2 w1 w2,
      addParticleFirstOpen fuel1 1%nat false w = Returned w1 ->
      addParticleFirstOpen fuel2 2%nat false w1 = Returned w2 ->
      Vector2.equals (destination w1 1%nat) (destination w2 2%nat) = false.
Proof.
  apply (addParticleFirstOpen_twice_distinct (newWorld bucket100 (fun _ => blank) true)).
  reflexivity.
Defined.

(** ** Adding a member again *)

Lemma addParticle_again p animate w :
  let added := mkListener (closures w) p in
  let w' := addParticle p animate w in
  count_occ Nat.eq_dec (_particles w') p = S (count_occ Nat.eq_dec (_particles w) p)
  /\ bucketRemovalListener (heap w' p) = Some added
  /\ (forall l, In l (userControlledListeners (heap w p)) ->
                In l (userControlledListeners (heap w' p)))
  /\ In added (userControlledListeners (heap w' p)).
Proof.
  cbn zeta. rewrite addParticle_particles. repeat split.
  - rewrite count_occ_app. cbn [count_occ].
    destruct (Nat.eq_dec p p); [|congruence]. apply Nat.add_1_r.
  - unfold addParticle. destruct animate; cbn; now rewrite ?Nat.eqb_refl.
  - intros l Hl. unfold addParticle. destruct animate; cbn; rewrite !Nat.eqb_refl; cbn;
      apply in_or_app; now left.
  - unfold addParticle. destruct animate; cbn; rewrite !Nat.eqb_refl; cbn;
      apply in_or_app; right; now left.
Qed.

Lemma In_count_occ l (p : ParticleId) : In p l -> (1 <= count_occ Nat.eq_dec l p)%nat.
Proof. intro H. apply (count_occ_In Nat.eq_dec) in H. lia. Qed.

Lemma addParticle_addedTwice p animate v previous w :
  In p (_particles w) ->
  bucketRemovalListener (heap w p) = Some previous ->
  (closureId previous < closures w)%nat ->
  addedTwice p previous w (addParticle p animate (destinationProperty_set p v w)).
Proof.
  intros Hin Hprev Hfresh.
  pose proof (addParticle_again p animate (destinationProperty_set p v w)) as H.
  cbn zeta in H. destruct H as (Hc & Hl & Hk & _).
  destruct (destinationProperty_set_listeners p v w p) as [El _].
  unfold addedTwice. repeat split.
  - exact Hc.
  - rewrite Hc. apply In_count_occ in Hin. cbn in *. lia.
  - exact Hl.
  - intros <-. simpl in Hfresh. lia.
  - intro H. apply Hk. now rewrite El.
Qed.

(** C10: the additions do not look whether the sphere is a member already.
    When [p] is a member whose removal listener [previous] was made by an
    earlier addition, adding it again by [addParticleNearestOpen] or by
    [addParticleFirstOpen] puts it into the array once more, so that it
    occurs there at least twice, and [bucketRemovalListener] now holds the
    new closure, which is not [previous]; [previous] stays linked to
    [userControlledProperty] if it was.  For a positive radius
    [addParticleFirstOpen] does return. *)
Theorem add_member_again (p : ParticleId) (animate : bool) (previous : Listener) (w : World) :
  In p (_particles w) ->
  bucketRemovalListener (heap w p) = Some previous ->
  (closureId previous < closures w)%nat ->
  addedTwice p previous w (addParticleNearestOpen p animate w)
  /\ (forall fuel w', addParticleFirstOpen fuel p animate w = Returned w' ->
                      addedTwice p previous w w')
  /\ (0 < _sphereRadius (self w) ->
      exists fuel w', addParticleFirstOpen fuel p animate w = Returned w').
Proof.
  intros Hin Hprev Hfresh. split; [|split].
  - now apply addParticle_addedTwice.
  - intros fuel w'. unfold addParticleFirstOpen.
    destruct (getFirstOpenLocation fuel w); [|discriminate].
    intros [= <-]. now apply addParticle_addedTwice.
  - intro Hr. destruct (getFirstOpenLocation_terminates w Hr) as [loc H].
    eexists. eexists. unfold addParticleFirstOpen. rewrite H. reflexivity.
Qed.

Lemma add_member_again_witness :
  let previous := mkListener 0%nat 1%nat in
  addedTwice 1%nat previous single (addParticleNearestOpen 1%nat false single)
  /\ (forall fuel w', addParticleFirstOpen fuel 1%nat false single = Returned w' ->
                      addedTwice 1%nat previous single w')
  /\ (0 < _sphereRadius (self single) ->
      exists fuel w', addParticleFirstOpen fuel 1%nat false single = Returned w').
Proof.
  apply (add_member_again 1%nat false (mkListener 0%nat 1%nat) single).
  - vm_compute. now left.
  - vm_compute. reflexivity.
  - vm_compute. lia.
Defined.

(** ** Relayout *)

Lemma relayout_for_none w l :
  relayout_for w l = None -> forall p, In p l -> isDangling w p = false.
Proof.
  induction l as [|q l IH]; simpl; [intros _ p []|].
  destruct (isDangling w q) eqn:E; [discriminate|].
  intros H p [<-|Hp]; auto.
Qed.

Lemma relayoutBucketParticles_no_dangling fuel : forall w w',
  relayoutBucketParticles fuel w = Returned w' ->
  forall p, In p (_particles w') -> isDangling w' p = false.
Proof.
  induction fuel as [|fuel IH]; intros w w'; [discriminate|].
  simpl. destruct (relayout_for w (_particles w)) as [d|] eqn:E.
  - apply IH.
  - intros [= <-]. now apply relayout_for_none.
Qed.

Lemma relayout_for_some w l p :
  relayout_for w l = Some p -> In p l /\ isDangling w p = true.
Proof.
  induction l as [|q l IH]; simpl; [discriminate|].
  destruct (isDangling w q) eqn:E.
  - intros [= <-]. auto.
  - intro H. destruct (IH H). auto.
Qed.

(** With no dangling member the relayout returns at once and moves nothing. *)
Lemma relayoutBucketParticles_stable fuel w :
  (forall p, In p (_particles w) -> isDangling w p = false) ->
  relayoutBucketParticles (S fuel) w = Returned w.
Proof.
  intro H. cbn [relayoutBucketParticles].
  destruct (relayout_for w (_particles w)) as [p|] eqn:E; [|reflexivity].
  apply relayout_for_some in E. destruct E as [Hin Hd].
  rewrite (H p Hin) in Hd. discriminate.
Qed.

Lemma relayoutBucketParticles_pass fuel w p :
  relayout_for w (_particles w) = Some p ->
  relayoutBucketParticles (S fuel) w
  = relayoutBucketParticles fuel
      (destinationProperty_set p (getNearestOpenLocation w (destination w p)) w).
Proof. intro H. cbn [relayoutBucketParticles]. now rewrite H. Qed.

Lemma relayoutBucketParticles_log fuel : forall w w',
  relayoutBucketParticles fuel w = Returned w' ->
  exists moves, log w' = moves ++ log w /\ Forall isMove moves.
Proof.
  induction fuel as [|fuel IH]; intros w w'; [discriminate|].
  simpl. destruct (relayout_for w (_particles w)) as [d|].
  - intro H. apply IH in H. destruct H as [moves [E F]].
    exists (moves ++ [EvDestination d (getNearestOpenLocation w (destination w d))]).
    split.
    + rewrite E. cbn. now rewrite <- app_assoc.
    + apply Forall_app. split; [exact F|]. constructor; [|constructor].
      red. eauto.
  - intros [= <-]. exists []. split; [reflexivity|constructor].
Qed.

(** When [removeParticle] runs the relayout and returns, no member of the
    bucket is dangling. *)
Lemma removeParticle_no_dangling fuel particle w w' :
  removeParticle fuel particle false w = Returned w' ->
  forall p, In p (_particles w') -> isDangling w' p = false.
Proof.
  unfold removeParticle.
  destruct (assertEnabled w && negb (containsParticle w particle)); [discriminate|].
  cbn [negb]. apply relayoutBucketParticles_no_dangling.
Qed.

(** The relayout itself need not end.  Two worlds with the same bucket, members
    and destinations go through the same passes. *)
Section SameBucket.
Variables w w' : World.
Hypothesis same : sameBucket w w'.

Lemma sameBucket_isPositionOpen loc : isPositionOpen w loc = isPositionOpen w' loc.
Proof.
  destruct same as (_ & Hp & Hd). unfold isPositionOpen. rewrite <- Hp. clear Hp.
  induction (_particles w) as [|p l IH]; cbn [isPositionOpen_for]; [reflexivity|].
  now rewrite Hd, IH.
Qed.

Lemma sameBucket_countSupportingParticles loc :
  countSupportingParticles w loc = countSupportingParticles w' loc.
Proof.
  destruct same as (Hs & Hp & Hd). unfold countSupportingParticles. rewrite <- Hp. clear Hp.
  generalize 0%nat. induction (_particles w) as [|p l IH]; intro n;
    cbn [countSupportingParticles_for]; [reflexivity|].
  rewrite Hd, Hs. destruct (_ && _); apply IH.
Qed.

Lemma sameBucket_isDangling p : isDangling w p = isDangling w' p.
Proof.
  unfold isDangling. rewrite sameBucket_countSupportingParticles.
  destruct same as (Hs & _ & Hd). now rewrite Hd, Hs.
Qed.

Lemma sameBucket_relayout_for : relayout_for w (_particles w) = relayout_for w' (_particles w').
Proof.
  destruct same as (_ & Hp & _). rewrite <- Hp. clear Hp.
  induction (_particles w) as [|p l IH]; cbn [relayout_for]; [reflexivity|].
  now rewrite sameBucket_isDangling, IH.
Qed.

Lemma sameBucket_highestOccupiedLayer : highestOccupiedLayer w = highestOccupiedLayer w'.
Proof.
  destruct same as (Hs & Hp & Hd). unfold highestOccupiedLayer. rewrite <- Hp. clear Hp.
  generalize 0%Z. induction (_particles w) as [|p l IH]; intro h;
    cbn [highestOccupiedLayer_each]; [reflexivity|].
  now rewrite Hd, Hs, IH.
Qed.

Lemma sameBucket_openLocations_inLayer off layer : forall todo k acc,
  openLocations_inLayer w off layer todo k acc = openLocations_inLayer w' off layer todo k acc.
Proof.
  induction todo as [|todo IH]; intros k acc; [reflexivity|].
  cbn [openLocations_inLayer]. destruct same as (Hs & _ & _).
  now rewrite Hs, sameBucket_isPositionOpen, sameBucket_countSupportingParticles, IH.
Qed.

Lemma sameBucket_openLocations_layers : forall todo layer off num acc,
  openLocations_layers w todo layer off num acc = openLocations_layers w' todo layer off num acc.
Proof.
  induction todo as [|todo IH]; intros layer off num acc; [reflexivity|].
  cbn [openLocations_layers]. destruct same as (Hs & _ & _).
  now rewrite sameBucket_openLocations_inLayer, Hs, !IH.
Qed.

Lemma sameBucket_getNearestOpenLocation position :
  getNearestOpenLocation w position = getNearestOpenLocation w' position.
Proof.
  unfold getNearestOpenLocation, openLocations.
  rewrite sameBucket_highestOccupiedLayer, sameBucket_openLocations_layers.
  destruct same as (Hs & _ & _). now rewrite Hs.
Qed.

End SameBucket.

Lemma sameBucket_destinationProperty_set w w' p v :
  sameBucket w w' ->
  sameBucket (destinationProperty_set p v w) (destinationProperty_set p v w').
Proof.
  intros (Hs & Hp & Hd). repeat split; try assumption.
  intro q. destruct (Nat.eq_dec q p) as [->|Hne].
  - now rewrite !destinationProperty_set_same.
  - now rewrite !destinationProperty_set_other.
Qed.

Lemma sameBucket_relayout_OutOfFuel fuel : forall w w',
  sameBucket w w' ->
  relayoutBucketParticles fuel w = OutOfFuel ->
  relayoutBucketParticles fuel w' = OutOfFuel.
Proof.
  induction fuel as [|fuel IH]; intros w w' Hs; [reflexivity|].
  cbn [relayoutBucketParticles].
  rewrite <- (sameBucket_relayout_for w w' Hs).
  destruct (relayout_for w (_particles w)) as [p|]; [|discriminate].
  apply IH. rewrite <- (sameBucket_getNearestOpenLocation w w' Hs).
  destruct Hs as (Hs & Hp & Hd). rewrite <- Hd.
  apply sameBucket_destinationProperty_set. now repeat split.
Qed.

(** The relayout that follows the removal of the top sphere of [tower]
    never ends: sphere 2, above the apex with one supporter, has no
    admissible slot, goes to (0, 0), from there back above the apex, and so
    on. *)
Lemma relayout_of_tower_diverges :
  forall fuel, removeParticle fuel 3%nat false tower = OutOfFuel.
Proof.
  intro fuel. rewrite removeParticle_member by (vm_compute; reflexivity).
  set (a := evicted 3%nat tower).
  set (b := destinationProperty_set 2%nat Vector2.ZERO a).
  assert (Ha : forall n, relayoutBucketParticles (S n) a = relayoutBucketParticles n b).
  { intro n. rewrite (relayoutBucketParticles_pass n a 2%nat) by (vm_compute; reflexivity).
    f_equal. }
  assert (Hb : forall n, relayoutBucketParticles n a = OutOfFuel ->
                         relayoutBucketParticles (S n) b = OutOfFuel).
  { intros n H.
    rewrite (relayoutBucketParticles_pass n b 2%nat) by (vm_compute; reflexivity).
    revert H. apply sameBucket_relayout_OutOfFuel.
    repeat split. intro p.
    destruct (Nat.eq_dec p 2) as [->|Hne].
    - vm_compute. reflexivity.
    - unfold b. now rewrite !destinationProperty_set_other. }
  assert (H : forall n, relayoutBucketParticles n a = OutOfFuel
                        /\ relayoutBucketParticles n b = OutOfFuel).
  { induction n as [|n [IHa IHb]]; [split; reflexivity|].
    split; [rewrite Ha; exact IHb|apply Hb; exact IHa]. }
  apply H.
Qed.

(** ** The open locations of the nearest-open search *)

Lemma openLocations_inLayer_In w off layer loc : forall todo k acc,
  In loc (openLocations_inLayer w off layer todo k acc) <->
  In loc acc \/
  exists j, (k <= j < k + Z.of_nat todo)%Z /\ loc = slotLocation (self w) off layer j
            /\ isPositionOpen w loc = true /\ admissible w layer loc = true.
Proof.
  induction todo as [|todo IH]; intros k acc.
  - simpl. split; [auto|]. intros [H|[j [H _]]]; [exact H|lia].
  - cbn [openLocations_inLayer]. rewrite IH. clear IH.
    set (t := slotLocation (self w) off layer k).
    split.
    + intros [H|[j [Hj H]]].
      * destruct (isPositionOpen w t) eqn:Eo; [|auto].
        fold (admissible w layer t) in H.
        destruct (admissible w layer t) eqn:Ea; [|auto].
        apply in_app_or in H. destruct H as [H|[<-|[]]]; [auto|].
        right. exists k. repeat split; auto; lia.
      * right. exists j. split; [lia|exact H].
    + intros [H|[j [Hj [Hl [Ho Ha]]]]].
      * left. destruct (isPositionOpen w t); [|exact H].
        destruct (_ || _); [|exact H]. apply in_or_app. now left.
      * destruct (Z.eq_dec j k) as [->|Hne].
        -- left. fold t in Hl. subst loc. rewrite Ho.
           fold (admissible w layer t). rewrite Ha. apply in_or_app. right. now left.
        -- right. exists j. split; [lia|auto].
Qed.

Lemma openLocations_layers_In w loc : forall todo (layer : nat) acc,
  In loc (openLocations_layers w todo (Z.of_nat layer)
            (fst (layerShape (self w) layer)) (snd (layerShape (self w) layer)) acc) <->
  In loc acc \/
  exists (i : nat) j, (layer <= i < layer + todo)%nat
            /\ (0 <= j < layerSize (self w) i)%Z /\ loc = slot (self w) i j
            /\ isPositionOpen w loc = true /\ admissible w (Z.of_nat i) loc = true.
Proof.
  induction todo as [|todo IH]; intros layer acc.
  - simpl. split; [auto|]. intros [H|[i [j [H _]]]]; [exact H|lia].
  - cbn [openLocations_layers].
    assert (E : forall l,
      (if (snd (layerShape (self w) layer) - 1 =? 0)%Z
       then openLocations_layers w todo (Z.of_nat layer + 1)
              (fst (layerShape (self w) layer) + _sphereRadius (self w)
               - _sphereRadius (self w)) 1 l
       else openLocations_layers w todo (Z.of_nat layer + 1)
              (fst (layerShape (self w) layer) + _sphereRadius (self w))
              (snd (layerShape (self w) layer) - 1) l)
      = openLocations_layers w todo (Z.of_nat (S layer))
          (fst (layerShape (self w) (S layer))) (snd (layerShape (self w) (S layer))) l).
    { intro l. replace (Z.of_nat layer + 1)%Z with (Z.of_nat (S layer)) by lia.
      cbn [layerShape]. unfold nextLayer.
      destruct (snd (layerShape (self w) layer) - 1 =? 0)%Z; reflexivity. }
    rewrite E, IH, openLocations_inLayer_In. clear E IH.
    split.
    + intros [[H|[j [Hj H]]]|[i [j [Hi H]]]].
      * auto.
      * right. exists layer, j. split; [lia|]. split; [|exact H].
        unfold layerSize. lia.
      * right. exists i, j. split; [lia|exact H].
    + intros [H|[i [j [Hi [Hj H]]]]]; [auto|].
      destruct (Nat.eq_dec i layer) as [->|Hne].
      * left. right. exists j. split; [|exact H]. unfold layerSize in Hj. lia.
      * right. exists i, j. split; [lia|]. split; [exact Hj|exact H].
Qed.

Lemma openLocations_In w loc :
  In loc (openLocations w) <->
  exists (layer : nat) j,
    (Z.of_nat layer <= highestOccupiedLayer w + 1)%Z
    /\ (0 <= j < layerSize (self w) layer)%Z /\ loc = slot (self w) layer j
    /\ isPositionOpen w loc = true /\ admissible w (Z.of_nat layer) loc = true.
Proof.
  unfold openLocations.
  rewrite (openLocations_layers_In w loc _ 0 []).
  split.
  - intros [[]|[i [j [Hi H]]]]. exists i, j. split; [lia|exact H].
  - intros [i [j [Hi H]]]. right. exists i, j. split; [|exact H].
    assert (0 <= highestOccupiedLayer w)%Z; [|lia].
    unfold highestOccupiedLayer. generalize (_particles w).
    assert (G : forall l h, (0 <= h)%Z -> (0 <= highestOccupiedLayer_each w l h)%Z).
    { induction l as [|q l IH]; simpl; intros h Hh; [exact Hh|].
      apply IH. destruct (_ >? h)%Z eqn:E; lia. }
    intro l. apply G. lia.
Qed.

Lemma countSupportingParticles_for_filter w position : forall l count,
  countSupportingParticles_for w position l count
  = (count + length (filter (supports w position) l))%nat.
Proof.
  induction l as [|p l IH]; intro count; simpl; [lia|].
  fold (supports w position p). destruct (supports w position p); rewrite IH; simpl; lia.
Qed.

Lemma countSupportingParticles_filter w position :
  countSupportingParticles w position = length (filter (supports w position) (_particles w)).
Proof. apply countSupportingParticles_for_filter. Qed.

(** Outside the data model: a sphere that is in the array twice is counted
    twice.  After sphere 1 was added twice and sphere 2 once, the first slot
    of layer 1 is empty and the two slots under it are occupied and in
    lateral range, but three entries of the array support it and the search
    does not admit it. *)
Lemma three_supporters_not_admissible :
  let w := sameSphereTwice in
  let loc := slot bucket100 1 0 in
  _particles w = [1; 1; 2]%nat
  /\ (1 <= highestOccupiedLayer w + 1)%Z
  /\ isPositionOpen w loc = true
  /\ occupiedSupportingSlots_spec w 1 loc = [0; 1]%Z
  /\ countSupportingParticles w loc = 3%nat
  /\ existsb (Vector2.equals loc) (openLocations w) = false.
Proof. vm_compute. repeat split. discriminate. Qed.

Lemma closestOpenLocation_each_closest position : forall l c,
  let r := closestOpenLocation_each position l c in
  (r = c \/ In r l)
  /\ Vector2.distanceSquared r position <= Vector2.distanceSquared c position
  /\ forall x, In x l ->
       Vector2.distanceSquared r position <= Vector2.distanceSquared x position.
Proof.
  induction l as [|a l IH]; intro c; cbn zeta.
  - cbn [closestOpenLocation_each]. split; [now left|].
    split; [apply Qle_refl|intros x []].
  - cbn [closestOpenLocation_each]. unfold Vector2.closer.
    destruct (Qltb _ _) eqn:E.
    + apply Qltb_lt in E. destruct (IH a) as (Hin & Hle & Hall). cbn zeta in *.
      split; [right; destruct Hin as [->|Hin]; [now left|now right]|].
      split; [lra|]. intros x [<-|Hx]; [exact Hle|now apply Hall].
    + apply Qltb_ge in E. destruct (IH c) as (Hin & Hle & Hall). cbn zeta in *.
      split; [destruct Hin as [->|Hin]; [now left|right; now right]|].
      split; [exact Hle|]. intros x [<-|Hx]; [lra|now apply Hall].
Qed.

(** What [getNearestOpenLocation] returns when there is an open location:
    one of them, as near to [position] as any, by the distance on both axes. *)
Lemma getNearestOpenLocation_closest w position :
  openLocations w <> [] ->
  In (getNearestOpenLocation w position) (openLocations w)
  /\ forall loc, In loc (openLocations w) ->
       Vector2.distanceSquared (getNearestOpenLocation w position) position
       <= Vector2.distanceSquared loc position.
Proof.
  unfold getNearestOpenLocation. destruct (openLocations w) as [|first l]; [congruence|].
  intros _. destruct (closestOpenLocation_each_closest position (first :: l) first)
    as (Hin & _ & Hall).
  cbn zeta in *. split; [|exact Hall].
  destruct Hin as [->|Hin]; [now left|exact Hin].
Qed.

Lemma closestOpenLocation_each_app position l1 l2 c :
  closestOpenLocation_each position (l1 ++ l2) c
  = closestOpenLocation_each position l2 (closestOpenLocation_each position l1 c).
Proof.
  revert c. induction l1 as [|a l1 IH]; intro c; [reflexivity|]. cbn. apply IH.
Qed.

Lemma closestOpenLocation_each_first position : forall l c,
  exists before after,
    c :: l = before ++ closestOpenLocation_each position l c :: after
    /\ (forall x, In x before ->
          Vector2.distanceSquared (closestOpenLocation_each position l c) position
          < Vector2.distanceSquared x position)
    /\ (forall x, In x after ->
          Vector2.distanceSquared (closestOpenLocation_each position l c) position
          <= Vector2.distanceSquared x position).
Proof.
  induction l as [|a l IH] using rev_ind; intro c.
  - exists [], []. cbn. repeat split; intros x [].
  - destruct (IH c) as (bf & af & Hs & Hb & Ha).
    rewrite closestOpenLocation_each_app.
    set (r := closestOpenLocation_each position l c) in *.
    cbn [closestOpenLocation_each]. unfold Vector2.closer.
    destruct (Qltb _ _) eqn:E.
    + apply Qltb_lt in E. exists (c :: l), []. split; [now rewrite app_comm_cons|].
      split; [|intros x []]. intros x Hx. rewrite Hs in Hx.
      apply in_app_or in Hx. destruct Hx as [Hx|[<-|Hx]].
      * specialize (Hb x Hx). lra.
      * exact E.
      * specialize (Ha x Hx). lra.
    + apply Qltb_ge in E. exists bf, (af ++ [a]). split.
      * rewrite app_comm_cons, Hs, <- app_assoc. reflexivity.
      * split; [exact Hb|]. intros x Hx. apply in_app_or in Hx.
        destruct Hx as [Hx|[<-|[]]]; [now apply Ha|exact E].
Qed.

(** Among the open locations [getNearestOpenLocation] returns the first one
    in the order of the search that is as near to [position] as any, by the
    distance on both axes. *)
Lemma getNearestOpenLocation_first_closest w position :
  openLocations w <> [] ->
  exists before after,
    openLocations w = before ++ getNearestOpenLocation w position :: after
    /\ (forall x, In x before ->
          Vector2.distanceSquared (getNearestOpenLocation w position) position
          < Vector2.distanceSquared x position)
    /\ (forall x, In x after ->
          Vector2.distanceSquared (getNearestOpenLocation w position) position
          <= Vector2.distanceSquared x position).
Proof.
  unfold getNearestOpenLocation. destruct (openLocations w) as [|first l]; [congruence|].
  intros _. cbn [closestOpenLocation_each]. unfold Vector2.closer.
  assert (E : Qltb (Vector2.distanceSquared first position)
                   (Vector2.distanceSquared first position) = false)
    by (apply Qltb_ge; apply Qle_refl).
  rewrite E. apply closestOpenLocation_each_first.
Qed.

(** C2 fails on the code: with spheres in the first three slots of the bottom
    layer, for a reference point straight above the fourth slot (x = 30) and
    high above the bucket (y = 100), the fourth slot is an admitted open
    location at horizontal distance 0, and [getNearestOpenLocation] returns
    the slot of layer 1 at x = 0, which is nearer by the distance on both
    axes. *)
Theorem getNearestOpenLocation_uses_both_axes :
  let reference := Vector2.mk 30 100 in
  let chosen := getNearestOpenLocation threeInBase reference in
  let below := slot bucket100 0 3 in
  _particles threeInBase = [1; 2; 3]%nat
  /\ existsb (Vector2.equals below) (openLocations threeInBase) = true
  /\ Vector2.x below == Vector2.x reference
  /\ Vector2.equals chosen (slot bucket100 1 1) = true
  /\ Vector2.x chosen == 0
  /\ Qabs (Vector2.x below - Vector2.x reference)
     < Qabs (Vector2.x chosen - Vector2.x reference).
Proof. vm_compute. repeat split. Qed.

Lemma getNearestOpenLocation_nil w position :
  openLocations w = [] -> getNearestOpenLocation w position = Vector2.ZERO.
Proof. unfold getNearestOpenLocation. now intros ->. Qed.

(** C6 (as amended): when no slot of the searched layers is both empty and
    admissible, [getNearestOpenLocation] returns [Vector2.ZERO], the point
    (0, 0) of the coordinates, wherever the bucket is. *)
Theorem getNearestOpenLocation_fallback (w : World) (position : Vector2.t) :
  (forall (layer : nat) (j : Z),
      (Z.of_nat layer <= highestOccupiedLayer w + 1)%Z ->
      (0 <= j < layerSize (self w) layer)%Z ->
      isPositionOpen w (slot (self w) layer j) = true ->
      admissible w (Z.of_nat layer) (slot (self w) layer j) = false) ->
  getNearestOpenLocation w position = Vector2.ZERO.
Proof.
  intro H. apply getNearestOpenLocation_nil.
  destruct (openLocations w) as [|loc l] eqn:E; [reflexivity|].
  assert (Hin : In loc (openLocations w)) by (rewrite E; now left).
  apply openLocations_In in Hin. destruct Hin as (layer & j & Hl & Hj & -> & Ho & Ha).
  rewrite (H layer j Hl Hj Ho) in Ha. discriminate.
Qed.

Lemma getNearestOpenLocation_fallback_witness :
  getNearestOpenLocation fullSingle (Vector2.mk 7 3) = Vector2.ZERO.
Proof.
  apply (getNearestOpenLocation_fallback fullSingle (Vector2.mk 7 3)).
  intros layer j Hl Hj.
  assert (Hh : highestOccupiedLayer fullSingle = 0%Z) by (vm_compute; reflexivity).
  rewrite Hh in Hl.
  assert (Hc : layer = 0%nat \/ layer = 1%nat) by lia.
  destruct Hc as [-> | ->].
  - assert (Hs : layerSize (self fullSingle) 0 = 1%Z) by (vm_compute; reflexivity).
    rewrite Hs in Hj. assert (j = 0%Z) as -> by lia.
    vm_compute. intro Ho. discriminate Ho.
  - assert (Hs : layerSize (self fullSingle) 1 = 1%Z) by (vm_compute; reflexivity).
    rewrite Hs in Hj. assert (j = 0%Z) as -> by lia.
    vm_compute. intros _. reflexivity.
Defined.

(** C6 as stated fails: a bucket at (5, 5) whose only slot is taken has no
    admissible open slot; the search returns (0, 0), which is not the
    position of the bucket. *)
Lemma fallback_is_not_the_bucket_position :
  let w := fullSingle in
  _particles w = [1%nat]
  /\ openLocations w = []
  /\ (forall position, getNearestOpenLocation w position = Vector2.mk 0 0)
  /\ Vector2.equals (Vector2.mk 0 0) (position (self w)) = false.
Proof.
  repeat split; try (vm_compute; reflexivity).
Qed.

(** ** No dangling member within the pyramid *)

Lemma layerShape_next g (layer : nat) :
  forall A (f : Q -> Z -> A),
  (if (snd (layerShape g layer) - 1 =? 0)%Z
   then f (fst (layerShape g layer) + _sphereRadius g - _sphereRadius g) 1%Z
   else f (fst (layerShape g layer) + _sphereRadius g) (snd (layerShape g layer) - 1)%Z)
  = f (fst (layerShape g (S layer))) (snd (layerShape g (S layer))).
Proof.
  intros A f. cbn [layerShape]. unfold nextLayer.
  destruct (snd (layerShape g layer) - 1 =? 0)%Z; reflexivity.
Qed.

Lemma getFirstOpenLocation_while_tested w fuel : forall (row : nat) k loc,
  (0 <= k)%Z ->
  (k < layerSize (self w) row \/ k = 0)%Z ->
  (forall row' k', testedBefore (self w) row k row' k' ->
                   isPositionOpen w (slot (self w) row' k') = false) ->
  getFirstOpenLocation_while fuel w
    (fst (layerShape (self w) row)) (snd (layerShape (self w) row)) (Z.of_nat row) k
  = Some loc ->
  exists (L : nat) j,
    loc = slot (self w) L j /\ (0 <= j)%Z /\ (j < layerSize (self w) L \/ j = 0)%Z
    /\ forall row' k', testedBefore (self w) L j row' k' ->
                       isPositionOpen w (slot (self w) row' k') = false.
Proof.
  induction fuel as [|fuel IH]; intros row k loc Hk Hlt Hb; [discriminate|].
  cbn [getFirstOpenLocation_while].
  fold (slot (self w) row k).
  destruct (isPositionOpen w (slot (self w) row k)) eqn:E.
  - intros [= <-]. exists row, k. auto.
  - destruct (k + 1 >=? snd (layerShape (self w) row))%Z eqn:Ege.
    + replace (Z.of_nat row + 1)%Z with (Z.of_nat (S row)) by lia.
      rewrite (layerShape_next (self w) row _
                 (fun o n => getFirstOpenLocation_while fuel w o n (Z.of_nat (S row)) 0)).
      apply IH; [lia|right; reflexivity|].
      intros row' k' [H0 [[Hr Hs]|[Hr Hs]]]; [|lia].
      destruct (Nat.eq_dec row' row) as [->|Hne].
      * unfold layerSize in Hs.
        destruct (Z.eq_dec k' k) as [->|Hk']; [exact E|].
        apply Hb. split; [exact H0|]. right. split; [reflexivity|lia].
      * apply Hb. split; [exact H0|]. left. split; [lia|exact Hs].
    + apply IH; [lia|left; unfold layerSize; lia|].
      intros row' k' [H0 [[Hr Hs]|[Hr Hs]]].
      * apply Hb. split; [exact H0|]. left. auto.
      * subst row'. destruct (Z.eq_dec k' k) as [->|Hk']; [exact E|].
        apply Hb. split; [exact H0|]. right. split; [reflexivity|lia].
Qed.

(** Below the apex of the pyramid a layer has one slot less than the layer
    under it and starts one radius further from the edge. *)
Lemma pyramid_layerSize g (L : nat) :
  (Z.of_nat L < initialNumParticlesInLayer g)%Z ->
  layerSize g L = (initialNumParticlesInLayer g - Z.of_nat L)%Z.
Proof.
  unfold layerSize. induction L as [|L IH]; intro H.
  - cbn. lia.
  - cbn [layerShape]. unfold nextLayer. rewrite IH by lia.
    destruct (_ =? 0)%Z eqn:E; cbn [snd]; lia.
Qed.

Lemma pyramid_layerShape_S g (L : nat) :
  (Z.of_nat (S L) < initialNumParticlesInLayer g)%Z ->
  fst (layerShape g (S L)) = fst (layerShape g L) + _sphereRadius g
  /\ layerSize g (S L) = (layerSize g L - 1)%Z.
Proof.
  intro H. unfold layerSize. cbn [layerShape]. unfold nextLayer.
  pose proof (pyramid_layerSize g L) as E. unfold layerSize in E. rewrite E by lia.
  destruct (_ =? 0)%Z eqn:E0; [lia|]. cbn [fst snd]. split; [reflexivity|lia].
Qed.

(** A member in one of the two slots under a slot supports it. *)
Lemma supports_from_below w (L : nat) j j' m :
  0 < _sphereRadius (self w) ->
  fst (layerShape (self w) (S L)) = fst (layerShape (self w) L) + _sphereRadius (self w) ->
  j' = j \/ j' = (j + 1)%Z ->
  Vector2.equals (destination w m) (slot (self w) L j') = true ->
  supports w (slot (self w) (S L) j) m = true.
Proof.
  intros Hr Hoff Hj He. apply equals_true in He. destruct He as [Hx Hy].
  unfold supports, Vector2.within, Vector2.distanceSquared.
  unfold slot, slotLocation, getYPositionForLayer in *. cbn [Vector2.x Vector2.y] in *.
  rewrite Hoff. rewrite Nat2Z.inj_succ. unfold Z.succ. rewrite inject_Z_plus.
  change (inject_Z 1) with 1.
  set (r := _sphereRadius (self w)) in *.
  set (a := inject_Z (Z.of_nat L)) in *.
  assert (Ey : Vector2.y (destination w m)
               - (Vector2.y (position (self w)) + _verticalParticleOffset (self w)
                  + (a + 1) * r * 2 * (433 # 500))
               == - (r * (433 # 250))).
  { rewrite Hy. ring. }
  assert (Ex : Vector2.x (destination w m)
               - (Vector2.x (position (self w)) - size_width (self w) / 2
                  + (fst (layerShape (self w) L) + r) + inject_Z j * 2 * r)
               == - r
               \/ Vector2.x (destination w m)
                  - (Vector2.x (position (self w)) - size_width (self w) / 2
                     + (fst (layerShape (self w) L) + r) + inject_Z j * 2 * r)
                  == r).
  { rewrite Hx. destruct Hj as [-> | ->].
    - left. ring.
    - right. rewrite inject_Z_plus. change (inject_Z 1) with 1. ring. }
  assert (Hrr : 0 < r * r) by nra.
  rewrite !andb_true_iff, !Qltb_lt. split; [|split].
  - assert (E : (a + 1) * r * 2 * (433 # 500) == a * r * 2 * (433 # 500) + r * (433 # 250))
      by ring.
    rewrite Hy, E. lra.
  - lra.
  - rewrite Ey. destruct Ex as [Ex|Ex]; rewrite Ex.
    + assert (E : - r * - r + - (r * (433 # 250)) * - (r * (433 # 250))
                  == (r * r) * (249989 # 62500)) by ring.
      assert (E' : r * 3 * (r * 3) == (r * r) * 9) by ring.
      rewrite E, E'. lra.
    + assert (E : r * r + - (r * (433 # 250)) * - (r * (433 # 250))
                  == (r * r) * (249989 # 62500)) by ring.
      assert (E' : r * 3 * (r * 3) == (r * r) * 9) by ring.
      rewrite E, E'. lra.
Qed.

Lemma filter_two {A} (f : A -> bool) (l : list A) (a b : A) :
  In a l -> In b l -> a <> b -> f a = true -> f b = true ->
  (2 <= length (filter f l))%nat.
Proof.
  intros Ha Hb Hne Hfa Hfb.
  destruct (in_split a l Ha) as (l1 & l2 & ->).
  rewrite filter_app. cbn [filter]. rewrite Hfa, length_app. cbn [length].
  assert (Hb' : In b l1 \/ In b l2).
  { apply in_app_or in Hb. destruct Hb as [H|[H|H]]; [auto|congruence|auto]. }
  assert (G : forall l0, In b l0 -> (1 <= length (filter f l0))%nat).
  { intros l0 H. destruct (in_split b l0 H) as (l3 & l4 & ->).
    rewrite filter_app. cbn [filter]. rewrite Hfb, length_app. cbn [length]. lia. }
  destruct Hb' as [H|H]; apply G in H; lia.
Qed.

Lemma layer_height_injective (r a b : Q) :
  0 < r -> a * r * 2 * (433 # 500) == b * r * 2 * (433 # 500) -> a == b.
Proof.
  intros Hr E.
  assert (H : (a - b) * (r * (433 # 250)) == 0).
  { assert (R : (a - b) * (r * (433 # 250))
                == a * r * 2 * (433 # 500) - b * r * 2 * (433 # 500)) by ring.
    rewrite R, E. ring. }
  apply Qmult_integral in H. destruct H as [H|H]; lra.
Qed.

Lemma slot_layer_injective g (L L' : nat) j j' :
  0 < _sphereRadius g -> slot g L j = slot g L' j' -> L = L'.
Proof.
  intros Hr E. apply (f_equal Vector2.y) in E.
  unfold slot, slotLocation, getYPositionForLayer in E. cbn [Vector2.y] in E.
  assert (Ez : inject_Z (Z.of_nat L) == inject_Z (Z.of_nat L')).
  { apply (layer_height_injective (_sphereRadius g)); [exact Hr|].
    assert (H : forall u v w : Q, u + v = u + w -> v == w).
    { intros u v w H. apply (Qplus_inj_l _ _ u). rewrite H. reflexivity. }
    apply (H _ _ _ E). }
  assert (Z.of_nat L = Z.of_nat L') by (apply inject_Z_injective; exact Ez). lia.
Qed.

Lemma slot_bottom_row g j :
  Vector2.y (slot g 0 j) == Vector2.y (position g) + _verticalParticleOffset g.
Proof.
  unfold slot, slotLocation, getYPositionForLayer. cbn [Vector2.y Z.of_nat].
  change (inject_Z 0) with 0. ring.
Qed.

(** The destination that [getFirstOpenLocation] gives inside the pyramid is
    on the bottom row or has a member in each of the two slots under it. *)
Lemma getFirstOpenLocation_supported w fuel (L : nat) j :
  0 < _sphereRadius (self w) ->
  getFirstOpenLocation fuel w = Some (slot (self w) L j) ->
  (Z.of_nat L < initialNumParticlesInLayer (self w))%Z ->
  Qeq_bool (Vector2.y (slot (self w) L j))
           (Vector2.y (position (self w)) + _verticalParticleOffset (self w)) = true
  \/ (2 <= countSupportingParticles w (slot (self w) L j))%nat.
Proof.
  intros Hr Hloop Hcap. unfold getFirstOpenLocation in Hloop.
  apply (getFirstOpenLocation_while_tested w fuel 0 0) in Hloop;
    [|lia|right; reflexivity|intros row' k' [H0 [[H _]|[_ H]]]; lia].
  destruct Hloop as (L' & j' & E & Hj0 & Hj & Hb).
  assert (L' = L) by (symmetry; eapply slot_layer_injective; eauto). subst L'.
  rewrite E. clear E j.
  destruct L as [|L].
  - left. apply Qeq_bool_iff. apply slot_bottom_row.
  - right. destruct (pyramid_layerShape_S (self w) L Hcap) as [Hoff Hsize].
    pose proof (pyramid_layerSize (self w) (S L) Hcap) as HS.
    assert (Hlt : (j' + 1 < layerSize (self w) L)%Z) by lia.
    assert (H1 : isPositionOpen w (slot (self w) L j') = false).
    { apply Hb. split; [lia|]. left. split; [lia|lia]. }
    assert (H2 : isPositionOpen w (slot (self w) L (j' + 1)) = false).
    { apply Hb. split; [lia|]. left. split; [lia|lia]. }
    apply isPositionOpen_for_false in H1. destruct H1 as (m1 & Hin1 & He1).
    apply isPositionOpen_for_false in H2. destruct H2 as (m2 & Hin2 & He2).
    rewrite countSupportingParticles_filter.
    apply (filter_two _ _ m1 m2 Hin1 Hin2).
    + intros ->. apply equals_true in He1, He2.
      destruct He1 as [X1 _]. destruct He2 as [X2 _]. rewrite X1 in X2.
      unfold slot, slotLocation in X2. cbn [Vector2.x] in X2.
      rewrite inject_Z_plus in X2. change (inject_Z 1) with 1 in X2.
      set (r := _sphereRadius (self w)) in *.
      assert (E : (inject_Z j' + 1) * 2 * r == inject_Z j' * 2 * r + 2 * r) by ring.
      rewrite E in X2. lra.
    + apply (supports_from_below w L j' j' m1 Hr Hoff); auto.
    + apply (supports_from_below w L j' (j' + 1) m2 Hr Hoff); auto.
Qed.


Lemma evicted_self p w : self (evicted p w) = self w.
Proof. unfold evicted. cbn. destruct (bucketRemovalListener (heap w p)); reflexivity. Qed.



(** A sphere that was not a member and comes to rest on the bottom row or on
    two supporters leaves no member dangling. *)
Lemma added_noDangling w w' p :
  self w' = self w ->
  _particles w' = _particles w ++ [p] ->
  (forall q, q <> p -> destination w' q = destination w q) ->
  ~ In p (_particles w) ->
  noDangling w ->
  Qeq_bool (Vector2.y (destination w' p))
           (Vector2.y (position (self w)) + _verticalParticleOffset (self w)) = true
  \/ (2 <= countSupportingParticles w (destination w' p))%nat ->
  noDangling w'.
Proof.
  intros Hs Hp Hd Hn Hw Hnew.
  assert (Hc : forall loc,
             (countSupportingParticles w loc <= countSupportingParticles w' loc)%nat).
  { intro loc. rewrite !countSupportingParticles_filter, Hp, filter_app, length_app.
    rewrite (filter_ext_in (supports w' loc) (supports w loc)); [lia|].
    intros q Hq. unfold supports. rewrite Hs, Hd; [reflexivity|].
    intros ->. contradiction. }
  intros q Hq. rewrite Hp in Hq. unfold isDangling. rewrite Hs.
  apply in_app_or in Hq. destruct Hq as [Hq|[<-|[]]].
  - assert (q <> p) by (intros ->; contradiction).
    rewrite (Hd q) by assumption. specialize (Hw q Hq). unfold isDangling in Hw.
    apply andb_false_iff in Hw. apply andb_false_iff. destruct Hw as [Hw|Hw]; [now left|].
    right. apply Nat.ltb_ge in Hw. apply Nat.ltb_ge.
    specialize (Hc (destination w q)). lia.
  - apply andb_false_iff. destruct Hnew as [Hb|Hc2].
    + left. now rewrite Hb.
    + right. apply Nat.ltb_ge. specialize (Hc (destination w' p)). lia.
Qed.

Lemma operation_noDangling w w' :
  0 < _sphereRadius (self w) -> noDangling w -> operation w w' -> noDangling w'.
Proof.
  intros Hr Hw Hop. revert Hr Hw.
  destruct Hop as [w0 fuel p a w1 L j Hn H Hd Hcap|w0 p a Hn Ho|w0 fuel p w1 H];
    intros Hr Hw.
  - apply addParticleFirstOpen_returned in H.
    destruct H as (loc & Hloop & _ & Hloc & Hp & Hs & Hq).
    apply (added_noDangling w0 w1 p); try assumption.
    subst loc. rewrite Hd. rewrite Hd in Hloop.
    apply (getFirstOpenLocation_supported w0 fuel L j Hr Hloop Hcap).
  - unfold addParticleNearestOpen.
    set (v := getNearestOpenLocation w0 (destination w0 p)).
    assert (Hv : destination (addParticle p a (destinationProperty_set p v w0)) p = v).
    { rewrite addParticle_destination. apply destinationProperty_set_same. }
    apply (added_noDangling w0 _ p); try assumption.
    + now rewrite addParticle_self.
    + now rewrite addParticle_particles.
    + intros q Hq. rewrite addParticle_destination.
      now apply destinationProperty_set_other.
    + rewrite Hv.
      destruct (getNearestOpenLocation_closest w0 (destination w0 p) Ho) as [Hin _].
      fold v in Hin. apply openLocations_In in Hin.
      destruct Hin as (layer & j & _ & _ & E & _ & Ha).
      unfold admissible in Ha. apply orb_true_iff in Ha. destruct Ha as [Ha|Ha].
      * left. apply Z.eqb_eq in Ha. assert (layer = 0%nat) as -> by lia.
        rewrite E. apply Qeq_bool_iff. apply slot_bottom_row.
      * right. apply Nat.eqb_eq in Ha. lia.
  - intros q Hq. eapply removeParticle_no_dangling; eauto.
Qed.


(** ** The scenario of five spheres

    The first-open search on a bucket whose members are in slots is the
    search [firstOpenSlot] on the indices of the slots, which does not
    depend on where the bucket is. *)

(** Whether two slots are the same coordinate does not depend on where the
    bucket is. *)
Lemma equals_slotLocation g o L k o' L' k' :
  Vector2.equals (slotLocation g o L k) (slotLocation g o' L' k')
  = Qeq_bool (o + inject_Z k * 2 * _sphereRadius g) (o' + inject_Z k' * 2 * _sphereRadius g)
    && Qeq_bool (inject_Z L * _sphereRadius g * 2 * (433 # 500))
                (inject_Z L' * _sphereRadius g * 2 * (433 # 500)).
Proof.
  unfold Vector2.equals, slotLocation, getYPositionForLayer. cbn [Vector2.x Vector2.y].
  f_equal; apply Qeq_bool_eq_iff; split; intro H; lra.
Qed.

Lemma supports_slotLocation w g o L k o' L' k' p :
  self w = g ->
  destination w p = slotLocation g o L k ->
  supports w (slotLocation g o' L' k') p
  = Qltb (inject_Z L * _sphereRadius g * 2 * (433 # 500))
         (inject_Z L' * _sphereRadius g * 2 * (433 # 500))
    && (Qltb 0 (_sphereRadius g * 3)
        && Qltb ((o + inject_Z k * 2 * _sphereRadius g
                  - (o' + inject_Z k' * 2 * _sphereRadius g))
                 * (o + inject_Z k * 2 * _sphereRadius g
                    - (o' + inject_Z k' * 2 * _sphereRadius g))
                 + (inject_Z L * _sphereRadius g * 2 * (433 # 500)
                    - inject_Z L' * _sphereRadius g * 2 * (433 # 500))
                   * (inject_Z L * _sphereRadius g * 2 * (433 # 500)
                      - inject_Z L' * _sphereRadius g * 2 * (433 # 500)))
                ((_sphereRadius g * 3) * (_sphereRadius g * 3))).
Proof.
  intros Hs Hd. unfold supports, Vector2.within, Vector2.distanceSquared.
  rewrite Hd, Hs. unfold slotLocation, getYPositionForLayer. cbn [Vector2.x Vector2.y].
  f_equal; [|f_equal]; apply Qltb_eq_iff.
  - split; intro H; lra.
  - match goal with |- ?a < ?c <-> ?b < ?c => assert (E : a == b) by ring end.
    rewrite E. reflexivity.
Qed.

Lemma isPositionOpen_placed w l s :
  placed w l ->
  isPositionOpen w (place (self w) s)
  = forallb (fun s' => negb (sameSlot (_sphereRadius (self w)) s' s)) (map snd l).
Proof.
  intros [Hp Hd]. unfold isPositionOpen. rewrite Hp. clear Hp.
  induction Hd as [|[p s'] l H Hd IH]; [reflexivity|].
  cbn [map fst snd isPositionOpen_for forallb] in *. rewrite H, IH.
  unfold place. rewrite equals_slotLocation. fold (sameSlot (_sphereRadius (self w)) s' s).
  destruct (sameSlot _ s' s); reflexivity.
Qed.

Lemma getFirstOpenLocation_while_placed w l :
  placed w l ->
  forall fuel off num row k,
    getFirstOpenLocation_while fuel w off num row k
    = option_map (place (self w))
        (firstOpenSlot (_sphereRadius (self w)) (map snd l) fuel off num row k).
Proof.
  intros Hp. induction fuel as [|fuel IH]; intros off num row k; [reflexivity|].
  cbn [getFirstOpenLocation_while firstOpenSlot].
  change (slotLocation (self w) off row k) with (place (self w) (off, row, k)).
  rewrite (isPositionOpen_placed w l _ Hp).
  destruct (forallb _ _); [reflexivity|].
  destruct (k + 1 >=? num)%Z; [destruct (num - 1 =? 0)%Z|]; apply IH.
Qed.

Lemma supports_placed w l s :
  placed w l ->
  filter (supports w (place (self w) s)) (_particles w)
  = map fst (filter (fun ps => slotSupports (_sphereRadius (self w)) s (snd ps)) l).
Proof.
  intros [Hp Hd]. rewrite Hp. clear Hp.
  induction Hd as [|[p s'] l H Hd IH]; [reflexivity|].
  cbn [map fst snd filter] in *.
  unfold place in *.
  rewrite (supports_slotLocation w (self w) _ _ _ _ _ _ p eq_refl H).
  fold (slotSupports (_sphereRadius (self w)) s s').
  destruct (slotSupports _ s s'); cbn [map fst]; now rewrite IH.
Qed.

Lemma placed_add w l p animate s :
  placed w l -> ~ In p (map fst l) ->
  let w' := addParticle p animate (destinationProperty_set p (place (self w) s) w) in
  placed w' (l ++ [(p, s)]) /\ self w' = self w.
Proof.
  intros [Hp Hd] Hn w'.
  assert (Hs : self w' = self w) by (unfold w'; now rewrite addParticle_self).
  split; [|exact Hs]. split.
  - unfold w'. rewrite addParticle_particles, map_app. cbn. now rewrite Hp.
  - rewrite Hs. apply Forall_app. split.
    + rewrite Forall_forall in *. intros ps Hin. unfold w'.
      rewrite addParticle_destination, destinationProperty_set_other; [now apply Hd|].
      intro E. apply Hn. rewrite <- E. now apply in_map.
    + constructor; [|constructor]. cbn [fst snd]. unfold w'.
      rewrite addParticle_destination. apply destinationProperty_set_same.
Qed.

Lemma addParticleFirstOpen_placed fuel w l p animate s :
  placed w l -> ~ In p (map fst l) ->
  firstOpenSlot (_sphereRadius (self w)) (map snd l) fuel
    (initialOffsetFromBucketEdge (self w)) (initialNumParticlesInLayer (self w)) 0 0 = Some s ->
  exists w', addParticleFirstOpen fuel p animate w = Returned w'
             /\ placed w' (l ++ [(p, s)]) /\ self w' = self w.
Proof.
  intros Hp Hn Hs. unfold addParticleFirstOpen, getFirstOpenLocation.
  rewrite (getFirstOpenLocation_while_placed w l Hp), Hs. cbn [option_map].
  eexists. split; [reflexivity|]. now apply placed_add.
Qed.

(** C5 (as amended): with radius 10, usable proportion 1 and width 100,
    wherever the bucket is and whatever its vertical offset, layer 0 has 4
    slots, 20 apart, the first one 20 from the left edge of the bucket.
    Five distinct spheres added by [addParticleFirstOpen] to the empty
    bucket: the first four get the four slots of layer 0 from left to right,
    the fifth gets the first slot of layer 1, 30 from the edge, and the
    members that support it are the two spheres of the first two slots. *)
Theorem five_spheres_scenario (px py : Q) (verticalParticleOffset : option Q) (w0 : World)
    (animate : bool) (s1 s2 s3 s4 s5 : ParticleId) :
  self w0 = scenarioBucket px py verticalParticleOffset ->
  _particles w0 = [] ->
  NoDup [s1; s2; s3; s4; s5] ->
  let g := scenarioBucket px py verticalParticleOffset in
  let edge := Vector2.x (position g) - size_width g / 2 in
  layerSize g 0 = 4%Z
  /\ (forall j, Vector2.x (slot g 0 j) == edge + 20 + 20 * inject_Z j)
  /\ exists w,
       addAllFirstOpen 6 animate [s1; s2; s3; s4; s5] w0 = Returned w
       /\ _particles w = [s1; s2; s3; s4; s5]
       /\ destination w s1 = slot g 0 0
       /\ destination w s2 = slot g 0 1
       /\ destination w s3 = slot g 0 2
       /\ destination w s4 = slot g 0 3
       /\ destination w s5 = slot g 1 0
       /\ Vector2.x (slot g 1 0) == edge + 30
       /\ filter (supports w (slot g 1 0)) (_particles w) = [s1; s2]
       /\ countSupportingParticles w (destination w s5) = 2%nat.
Proof.
  intros Hg He Hnd g edge.
  split; [reflexivity|]. split.
  { intro j. unfold slot, slotLocation, edge. cbn [Vector2.x].
    change (fst (layerShape g 0)) with (40 # 2).
    change (_sphereRadius g) with 10. lra. }
  assert (P0 : placed w0 []) by (split; [exact He|constructor]).
  repeat match goal with
         | H : NoDup (_ :: _) |- _ => inversion_clear H
         end.
  cbn [In] in *.
  destruct (addParticleFirstOpen_placed 6 w0 [] s1 animate (40 # 2, 0, 0)%Z P0)
    as (w1 & R1 & P1 & G1); [cbn; intuition congruence|rewrite Hg; vm_compute; reflexivity|].
  rewrite Hg in G1.
  destruct (addParticleFirstOpen_placed 6 w1 _ s2 animate (40 # 2, 0, 1)%Z P1)
    as (w2 & R2 & P2 & G2); [cbn; intuition congruence|rewrite G1; vm_compute; reflexivity|].
  rewrite G1 in G2.
  destruct (addParticleFirstOpen_placed 6 w2 _ s3 animate (40 # 2, 0, 2)%Z P2)
    as (w3 & R3 & P3 & G3); [cbn; intuition congruence|rewrite G2; vm_compute; reflexivity|].
  rewrite G2 in G3.
  destruct (addParticleFirstOpen_placed 6 w3 _ s4 animate (40 # 2, 0, 3)%Z P3)
    as (w4 & R4 & P4 & G4); [cbn; intuition congruence|rewrite G3; vm_compute; reflexivity|].
  rewrite G3 in G4.
  destruct (addParticleFirstOpen_placed 6 w4 _ s5 animate (60 # 2, 1, 0)%Z P4)
    as (w5 & R5 & P5 & G5); [cbn; intuition congruence|rewrite G4; vm_compute; reflexivity|].
  rewrite G4 in G5. fold g in G5.
  exists w5. split.
  { cbn [addAllFirstOpen]. rewrite R1. cbn [bind]. rewrite R2. cbn [bind].
    rewrite R3. cbn [bind]. rewrite R4. cbn [bind]. rewrite R5. reflexivity. }
  pose proof (supports_placed w5 _ (60 # 2, 1, 0)%Z P5) as Hsup.
  destruct P5 as [Hp Hd]. cbn [app map fst] in Hp. cbn [app] in Hd, Hsup.
  split; [exact Hp|].
  repeat match goal with
         | H : Forall _ (_ :: _) |- _ => inversion_clear H
         end.
  cbn [fst snd] in *. rewrite G5 in *.
  assert (S5 : filter (supports w5 (slot g 1 0)) (_particles w5) = [s1; s2]).
  { change (slot g 1 0) with (place g (60 # 2, 1, 0)%Z). rewrite Hsup.
    change (_sphereRadius g) with 10. vm_compute. reflexivity. }
  repeat split; try assumption.
  - unfold slot, slotLocation, edge. cbn [Vector2.x].
    change (fst (layerShape g 1)) with (60 # 2).
    change (_sphereRadius g) with 10. change (inject_Z 0) with 0. lra.
  - rewrite countSupportingParticles_filter.
    replace (destination w5 s5) with (slot g 1 0) by (symmetry; assumption).
    now rewrite S5.
Qed.

Lemma five_spheres_scenario_witness :
  let g := scenarioBucket 0 0 None in
  let edge := Vector2.x (position g) - size_width g / 2 in
  layerSize g 0 = 4%Z
  /\ (forall j, Vector2.x (slot g 0 j) == edge + 20 + 20 * inject_Z j)
  /\ exists w,
       addAllFirstOpen 6 false [1; 2; 3; 4; 5]%nat (emptyWorld g) = Returned w
       /\ _particles w = [1; 2; 3; 4; 5]%nat
       /\ destination w 1%nat = slot g 0 0
       /\ destination w 2%nat = slot g 0 1
       /\ destination w 3%nat = slot g 0 2
       /\ destination w 4%nat = slot g 0 3
       /\ destination w 5%nat = slot g 1 0
       /\ Vector2.x (slot g 1 0) == edge + 30
       /\ filter (supports w (slot g 1 0)) (_particles w) = [1; 2]%nat
       /\ countSupportingParticles w (destination w 5%nat) = 2%nat.
Proof.
  apply (five_spheres_scenario 0 0 None (emptyWorld (scenarioBucket 0 0 None)) false
           1%nat 2%nat 3%nat 4%nat 5%nat).
  - reflexivity.
  - reflexivity.
  - repeat constructor; simpl; lia.
Defined.

(** C5 as stated fails: the slots of layer 0 are 20 apart, not 10, and the
    first is at the edge plus 20, not plus 10. *)
Lemma slots_20_apart_from_edge_plus_20 :
  let g := scenarioBucket 0 0 None in
  let edge := Vector2.x (position g) - size_width g / 2 in
  layerSize g 0 = 4%Z
  /\ Vector2.x (slot g 0 0) == edge + 20
  /\ ~ Vector2.x (slot g 0 0) == edge + 10
  /\ Vector2.x (slot g 0 1) - Vector2.x (slot g 0 0) == 20
  /\ ~ Vector2.x (slot g 0 1) - Vector2.x (slot g 0 0) == 10.
Proof. vm_compute. repeat split; discriminate. Qed.

(** ** Removal *)

(** C7: [removeParticle] of a sphere that is not a member fails the
    assertion when assertions are enabled.  For a member there is a world
    [w1] in which the sphere is no longer in the array (the other members all
    are), the sphere has no [bucketRemovalListener], the listener it had is
    no longer linked and every destination is as before; [removeParticle]
    returns [w1] when [skipLayout] is set and runs the relayout on [w1]
    otherwise. *)
Theorem removeParticle_contract (fuel : nat) (particle : ParticleId) (skipLayout : bool)
    (w : World) :
  (containsParticle w particle = false -> assertEnabled w = true ->
   removeParticle fuel particle skipLayout w = AssertionFailed)
  /\ (containsParticle w particle = true ->
      exists w1,
        _particles w1 = without (_particles w) particle
        /\ ~ In particle (_particles w1)
        /\ (forall q, q <> particle -> In q (_particles w1) <-> In q (_particles w))
        /\ bucketRemovalListener (heap w1 particle) = None
        /\ (forall l, bucketRemovalListener (heap w particle) = Some l ->
                      ~ In l (userControlledListeners (heap w1 particle)))
        /\ (forall q, destination w1 q = destination w q)
        /\ removeParticle fuel particle skipLayout w =
           if skipLayout then Returned w1 else relayoutBucketParticles fuel w1).
Proof.
  split.
  - intros Hc Ha. unfold removeParticle. now rewrite Hc, Ha.
  - intro Hc. exists (evicted particle w). repeat split.
    + apply evicted_particles.
    + rewrite evicted_particles, without_In. tauto.
    + rewrite evicted_particles, without_In. tauto.
    + rewrite evicted_particles, without_In. tauto.
    + apply evicted_listener.
    + apply evicted_unlinked.
    + apply evicted_destination.
    + unfold removeParticle. rewrite Hc, andb_false_r. fold (evicted particle w).
      destruct skipLayout; reflexivity.
Qed.

Lemma removeParticle_contract_witness :
  removeParticle 3 9%nat false pyramid5 = AssertionFailed
  /\ exists w1,
        _particles w1 = without (_particles pyramid5) 1%nat
        /\ ~ In 1%nat (_particles w1)
        /\ (forall q, q <> 1%nat -> In q (_particles w1) <-> In q (_particles pyramid5))
        /\ bucketRemovalListener (heap w1 1%nat) = None
        /\ (forall l, bucketRemovalListener (heap pyramid5 1%nat) = Some l ->
                      ~ In l (userControlledListeners (heap w1 1%nat)))
        /\ (forall q, destination w1 q = destination pyramid5 q)
        /\ removeParticle 3 1%nat false pyramid5 = relayoutBucketParticles 3 w1.
Proof.
  split.
  - apply (removeParticle_contract 3 9%nat false pyramid5); vm_compute; reflexivity.
  - apply (removeParticle_contract 3 1%nat false pyramid5). vm_compute. reflexivity.
Defined.

(** C9 (as amended): when the removal listener of a sphere is called and
    returns, the mutations it made are, in this order: the array of members
    without the sphere, the unlinking of the listener attached to the sphere,
    the deletion of [bucketRemovalListener], and then writes of destinations
    by the relayout only. *)
Theorem particleRemovedListener_trace (fuel : nat) (l attached : Listener) (w w' : World) :
  bucketRemovalListener (heap w (captured l)) = Some attached ->
  particleRemovedListener fuel l w = Returned w' ->
  exists moves,
    trace w' = trace w
               ++ [EvParticles (without (_particles w) (captured l));
                   EvUnlink (captured l) attached;
                   EvDelete (captured l)]
               ++ moves
    /\ Forall isMove moves.
Proof.
  intros Ha. unfold particleRemovedListener, removeParticle.
  destruct (assertEnabled w && negb (containsParticle w (captured l))); [discriminate|].
  cbn [negb set_particles emit heap]. rewrite Ha.
  destruct (relayoutBucketParticles fuel _) as [w1| |] eqn:E; try discriminate.
  cbn [bind]. intro H.
  assert (w1 = w') as ->.
  { destruct (bucketRemovalListener (heap w1 (captured l)));
      [destruct (assertEnabled w1)|]; congruence. }
  clear H. apply relayoutBucketParticles_log in E. destruct E as [moves [E F]].
  exists (rev moves). split.
  - unfold trace. rewrite E. cbn. rewrite rev_app_distr. cbn.
    rewrite <- !app_assoc. reflexivity.
  - now apply Forall_rev.
Qed.

Lemma particleRemovedListener_trace_witness :
  exists moves,
    trace pyramid5_without_1
    = trace pyramid5
      ++ [EvParticles [2; 3; 4; 5]%nat; EvUnlink 1%nat (mkListener 0%nat 1%nat); EvDelete 1%nat]
      ++ moves
    /\ Forall isMove moves.
Proof.
  apply (particleRemovedListener_trace 3 (mkListener 0%nat 1%nat) (mkListener 0%nat 1%nat)
           pyramid5);
    vm_compute; reflexivity.
Defined.

(** C9 as stated fails: in the removal started by the listener of the only
    sphere of a bucket, the first mutation is the one of the array of
    members; the listener is unlinked after it. *)
Lemma members_evicted_before_unlink :
  let l := mkListener 0%nat 1%nat in
  bucketRemovalListener (heap single 1%nat) = Some l
  /\ userControlledListeners (heap single 1%nat) = [l]
  /\ after (particleRemovedListener 2 l single) (fun w' =>
       skipn (length (trace single)) (trace w')
       = [EvParticles []; EvUnlink 1%nat l; EvDelete 1%nat]).
Proof. vm_compute. repeat split. Qed.

(** ** Extraction *)

Lemma closestParticle_forEach_first w location : forall l c,
  exists r before after,
    closestParticle_forEach w location l (Some c) = Some r
    /\ c :: l = before ++ r :: after
    /\ (forall q, In q before ->
          distanceSquaredFrom w location r < distanceSquaredFrom w location q)
    /\ (forall q, In q after ->
          distanceSquaredFrom w location r <= distanceSquaredFrom w location q).
Proof.
  induction l as [|p l IH] using rev_ind; intro c.
  - exists c, [], []. simpl. repeat split; intros q [].
  - destruct (IH c) as (r & bf & af & Hr & Hs & Hb & Ha).
    assert (E : forall l0 c0, closestParticle_forEach w location (l0 ++ [p]) c0
                = closestParticle_forEach w location [p]
                    (closestParticle_forEach w location l0 c0)).
    { induction l0 as [|x l0 IH0]; intro c0; [reflexivity|]. simpl. apply IH0. }
    rewrite E, Hr. simpl. unfold Vector2.closer.
    fold (distanceSquaredFrom w location p). fold (distanceSquaredFrom w location r).
    destruct (Qltb _ _) eqn:Hlt.
    + apply Qltb_lt in Hlt.
      exists p, (c :: l), []. split; [reflexivity|]. split.
      * now rewrite app_comm_cons.
      * split; [|intros q []]. intros q Hq. rewrite Hs in Hq.
        apply in_app_or in Hq. destruct Hq as [Hq|[<-|Hq]].
        -- specialize (Hb q Hq). lra.
        -- exact Hlt.
        -- specialize (Ha q Hq). lra.
    + apply Qltb_ge in Hlt.
      exists r, bf, (af ++ [p]). split; [reflexivity|]. split.
      * rewrite app_comm_cons, Hs, <- app_assoc. reflexivity.
      * split; [exact Hb|]. intros q Hq. apply in_app_or in Hq.
        destruct Hq as [Hq|[<-|[]]]; [now apply Ha|exact Hlt].
Qed.

(** ** Layers and heights *)

Lemma Qfloor_between (x : Q) (n : Z) :
  inject_Z n <= x -> x < inject_Z (n + 1) -> Qfloor x = n.
Proof.
  intros Hle Hlt.
  pose proof (Qfloor_le x) as H1. pose proof (Qlt_floor x) as H2.
  assert (A : (Qfloor x < n + 1)%Z).
  { rewrite Zlt_Qlt. eapply Qle_lt_trans; [exact H1|exact Hlt]. }
  assert (B : (n < Qfloor x + 1)%Z).
  { rewrite Zlt_Qlt. eapply Qle_lt_trans; [exact Hle|exact H2]. }
  lia.
Qed.

Lemma abs_roundSymmetric (v : Q) :
  Z.abs (roundSymmetric v) = Qfloor (Qabs v + (1 # 2)).
Proof.
  unfold roundSymmetric, Math_round.
  assert (H : (0 <= Qfloor (Qabs v + (1 # 2)))%Z).
  { change 0%Z with (Qfloor 0). apply Qfloor_resp_le.
    pose proof (Qabs_nonneg v). lra. }
  destruct (Qltb v 0); lia.
Qed.

Lemma getLayerForYPosition_floor g y :
  getLayerForYPosition g y
  = Qfloor (Qabs ((y - (Vector2.y (position g) + _verticalParticleOffset g)) / layerStep g)
            + (1 # 2)).
Proof. unfold getLayerForYPosition. apply abs_roundSymmetric. Qed.

(** X1: for a positive sphere radius, [getLayerForYPosition] applied to the
    height that [getYPositionForLayer] gives to a layer returns the absolute
    value of the layer: it inverts [getYPositionForLayer] on the layers 0, 1,
    2, ..., and a height below the bottom row is taken for the layer as far
    above it. *)
Theorem getLayerForYPosition_getYPositionForLayer (g : Geometry) (layer : Z) :
  0 < _sphereRadius g ->
  getLayerForYPosition g (getYPositionForLayer g layer) = Z.abs layer.
Proof.
  intro Hr. rewrite getLayerForYPosition_floor.
  assert (E : (getYPositionForLayer g layer
               - (Vector2.y (position g) + _verticalParticleOffset g)) / layerStep g
              == inject_Z layer).
  { unfold getYPositionForLayer, layerStep. field. lra. }
  rewrite E.
  assert (A : Qabs (inject_Z layer) == inject_Z (Z.abs layer))
    by (symmetry; apply Zabs_Qabs).
  rewrite A. apply Qfloor_between.
  - lra.
  - rewrite inject_Z_plus. change (inject_Z 1) with 1. lra.
Qed.

Lemma getLayerForYPosition_getYPositionForLayer_witness :
  getLayerForYPosition bucket100 (getYPositionForLayer bucket100 (-3)) = 3%Z.
Proof.
  apply (getLayerForYPosition_getYPositionForLayer bucket100 (-3)). reflexivity.
Defined.

(** X2: for a positive sphere radius, every height less than half a layer
    step ([sphereRadius * 2 * 0.866 / 2]) away from the height of a layer
    [layer >= 0] is attributed to that layer by [getLayerForYPosition]. *)
Theorem getLayerForYPosition_tolerance (g : Geometry) (layer : Z) (y : Q) :
  0 < _sphereRadius g ->
  (0 <= layer)%Z ->
  getYPositionForLayer g layer - layerStep g / 2 < y ->
  y < getYPositionForLayer g layer + layerStep g / 2 ->
  getLayerForYPosition g y = layer.
Proof.
  intros Hr Hl Hlo Hhi. rewrite getLayerForYPosition_floor.
  set (base := Vector2.y (position g) + _verticalParticleOffset g) in *.
  assert (Hs : 0 < layerStep g) by (unfold layerStep; lra).
  assert (Ey : getYPositionForLayer g layer == base + inject_Z layer * layerStep g).
  { unfold getYPositionForLayer, layerStep, base. ring. }
  rewrite Ey in Hlo, Hhi.
  set (v := (y - base) / layerStep g).
  assert (Hv1 : inject_Z layer - (1 # 2) < v).
  { unfold v. apply Qlt_shift_div_l; [exact Hs|].
    assert (R : (inject_Z layer - (1 # 2)) * layerStep g
                == inject_Z layer * layerStep g - layerStep g / 2) by field.
    rewrite R. lra. }
  assert (Hv2 : v < inject_Z layer + (1 # 2)).
  { unfold v. apply Qlt_shift_div_r; [exact Hs|].
    assert (R : (inject_Z layer + (1 # 2)) * layerStep g
                == inject_Z layer * layerStep g + layerStep g / 2) by field.
    rewrite R. lra. }
  assert (Hl' : 0 <= inject_Z layer) by (change 0 with (inject_Z 0); now rewrite <- Zle_Qle).
  apply Qfloor_between.
  - destruct (Qlt_le_dec v 0) as [Hneg|Hpos].
    + assert (layer = 0%Z) as ->.
      { assert (H : inject_Z layer < inject_Z 1) by (change (inject_Z 1) with 1; lra).
        rewrite <- Zlt_Qlt in H. lia. }
      change (inject_Z 0) with 0. pose proof (Qabs_nonneg v). lra.
    + rewrite Qabs_pos by exact Hpos. lra.
  - rewrite inject_Z_plus. change (inject_Z 1) with 1.
    destruct (Qlt_le_dec v 0) as [Hneg|Hpos].
    + rewrite Qabs_neg by lra. lra.
    + rewrite Qabs_pos by exact Hpos. lra.
Qed.

Lemma getLayerForYPosition_tolerance_witness :
  getLayerForYPosition bucket100 12 = 1%Z.
Proof.
  apply (getLayerForYPosition_tolerance bucket100 1 12);
    vm_compute; first [reflexivity | discriminate].
Defined.

Lemma getLayerForYPosition_nonneg g y : (0 <= getLayerForYPosition g y)%Z.
Proof. unfold getLayerForYPosition. apply Z.abs_nonneg. Qed.

Lemma highestOccupiedLayer_each_spec w : forall l h,
  let r := highestOccupiedLayer_each w l h in
  (h <= r)%Z
  /\ (forall p, In p l -> (getLayerForYPosition (self w) (Vector2.y (destination w p)) <= r)%Z)
  /\ (r = h \/ exists p, In p l
                         /\ getLayerForYPosition (self w) (Vector2.y (destination w p)) = r).
Proof.
  induction l as [|q l IH]; intro h; cbn zeta; cbn [highestOccupiedLayer_each].
  - split; [lia|]. split; [intros p []|now left].
  - set (lq := getLayerForYPosition (self w) (Vector2.y (destination w q))).
    destruct (lq >? h)%Z eqn:E.
    + destruct (IH lq) as (H1 & H2 & H3). cbn zeta in *.
      split; [lia|]. split.
      * intros p [<-|Hp]; [exact H1|now apply H2].
      * right. destruct H3 as [H3|(p & Hp & H3)].
        -- exists q. split; [now left|]. fold lq. now rewrite H3.
        -- exists p. split; [now right|exact H3].
    + destruct (IH h) as (H1 & H2 & H3). cbn zeta in *.
      split; [exact H1|]. split.
      * intros p [<-|Hp]; [fold lq; lia|now apply H2].
      * destruct H3 as [H3|(p & Hp & H3)]; [now left|].
        right. exists p. split; [now right|exact H3].
Qed.

(** X3: the value that the first loop of [getNearestOpenLocation] computes
    is an upper bound of the layers of the destinations of all members, and
    it is the layer of the destination of some member, unless the bucket has
    no member, where it is 0. *)
Theorem highestOccupiedLayer_is_highest (w : World) :
  (forall p, In p (_particles w) ->
     (getLayerForYPosition (self w) (Vector2.y (destination w p)) <= highestOccupiedLayer w)%Z)
  /\ (_particles w = [] /\ highestOccupiedLayer w = 0%Z
      \/ exists p, In p (_particles w)
           /\ getLayerForYPosition (self w) (Vector2.y (destination w p))
              = highestOccupiedLayer w).
Proof.
  unfold highestOccupiedLayer.
  destruct (highestOccupiedLayer_each_spec w (_particles w) 0) as (H1 & H2 & H3).
  cbn zeta in *. split; [exact H2|].
  destruct H3 as [H3|H3]; [|now right].
  destruct (_particles w) as [|q l] eqn:E; [now left|].
  right. exists q. split; [now left|].
  pose proof (H2 q (or_introl eq_refl)).
  pose proof (getLayerForYPosition_nonneg (self w) (Vector2.y (destination w q))). lia.
Qed.

(** ** What the searches find *)

Lemma getFirstOpenLocation_while_searched w fuel : forall (row : nat) k loc,
  (0 <= k < Z.max 1 (layerSize (self w) row))%Z ->
  (forall row' k', searchedBefore (self w) row k row' k' ->
                   isPositionOpen w (slot (self w) row' k') = false) ->
  getFirstOpenLocation_while fuel w
    (fst (layerShape (self w) row)) (snd (layerShape (self w) row)) (Z.of_nat row) k
  = Some loc ->
  exists (L : nat) j,
    loc = slot (self w) L j /\ (0 <= j < Z.max 1 (layerSize (self w) L))%Z
    /\ forall row' k', searchedBefore (self w) L j row' k' ->
                       isPositionOpen w (slot (self w) row' k') = false.
Proof.
  induction fuel as [|fuel IH]; intros row k loc Hk Hb; [discriminate|].
  cbn [getFirstOpenLocation_while].
  fold (slot (self w) row k).
  destruct (isPositionOpen w (slot (self w) row k)) eqn:E.
  - intros [= <-]. exists row, k. auto.
  - destruct (k + 1 >=? snd (layerShape (self w) row))%Z eqn:Ege.
    + replace (Z.of_nat row + 1)%Z with (Z.of_nat (S row)) by lia.
      rewrite (layerShape_next (self w) row _
                 (fun o n => getFirstOpenLocation_while fuel w o n (Z.of_nat (S row)) 0)).
      apply IH; [lia|].
      intros row' k' [H0 [[Hr Hs]|[Hr Hs]]]; [|lia].
      destruct (Nat.eq_dec row' row) as [->|Hne].
      * unfold layerSize in Hs, Hk.
        destruct (Z.eq_dec k' k) as [->|Hk']; [exact E|].
        apply Hb. split; [exact H0|]. right. split; [reflexivity|lia].
      * apply Hb. split; [exact H0|]. left. split; [lia|exact Hs].
    + apply IH; [unfold layerSize; lia|].
      intros row' k' [H0 [[Hr Hs]|[Hr Hs]]].
      * apply Hb. split; [exact H0|]. left. auto.
      * subst row'. destruct (Z.eq_dec k' k) as [->|Hk']; [exact E|].
        apply Hb. split; [exact H0|]. right. split; [reflexivity|lia].
Qed.

(** X4: for a positive sphere radius [getFirstOpenLocation] returns within
    one iteration per member plus one.  What it returns is position [j] of a
    layer, with [0 <= j < max 1 n] for the number [n] of slots of the layer,
    that no member has as its destination, and every position that the loop
    tests before it (layer by layer upwards, from left to right within a
    layer, position 0 also in a layer without slots) is the destination of
    a member. *)
Theorem getFirstOpenLocation_first_open (w : World) :
  0 < _sphereRadius (self w) ->
  exists (layer : nat) (j : Z),
    getFirstOpenLocation (S (length (_particles w))) w = Some (slot (self w) layer j)
    /\ (0 <= j < Z.max 1 (layerSize (self w) layer))%Z
    /\ isPositionOpen w (slot (self w) layer j) = true
    /\ forall layer' j', searchedBefore (self w) layer j layer' j' ->
                         isPositionOpen w (slot (self w) layer' j') = false.
Proof.
  intro Hr. destruct (getFirstOpenLocation_terminates w Hr) as [loc H].
  pose proof (getFirstOpenLocation_while_open _ _ _ _ _ _ _ H) as Ho.
  unfold getFirstOpenLocation in H.
  pose proof H as H'.
  apply (getFirstOpenLocation_while_searched w _ 0 0) in H';
    [|lia|intros row' k' [H0 [[Hx _]|[_ Hx]]]; lia].
  destruct H' as (L & j & E & Hj & Hb). subst loc.
  exists L, j. unfold getFirstOpenLocation. auto.
Qed.

Lemma getFirstOpenLocation_first_open_witness :
  (getFirstOpenLocation 2 narrowSingle = Some (slot bucket30 1 0)
   /\ layerSize bucket30 0 = 0%Z
   /\ isPositionOpen narrowSingle (slot bucket30 0 0) = false)
  /\ exists (layer : nat) (j : Z),
       getFirstOpenLocation (S (length (_particles narrowSingle))) narrowSingle
       = Some (slot (self narrowSingle) layer j)
       /\ (0 <= j < Z.max 1 (layerSize (self narrowSingle) layer))%Z
       /\ isPositionOpen narrowSingle (slot (self narrowSingle) layer j) = true
       /\ forall layer' j', searchedBefore (self narrowSingle) layer j layer' j' ->
                            isPositionOpen narrowSingle (slot (self narrowSingle) layer' j')
                            = false.
Proof.
  split; [vm_compute; repeat split|].
  apply (getFirstOpenLocation_first_open narrowSingle). vm_compute. reflexivity.
Defined.

Lemma narrow_layerSize g : (initialNumParticlesInLayer g <= 0)%Z ->
  forall layer, (layerSize g layer <= 0)%Z.
Proof.
  intros H layer. unfold layerSize. induction layer as [|layer IH]; [exact H|].
  cbn [layerShape]. unfold nextLayer.
  destruct (snd (layerShape g layer) - 1 =? 0)%Z eqn:E; cbn [snd]; lia.
Qed.

Lemma narrow_initialNumParticlesInLayer g :
  0 < _sphereRadius g ->
  size_width g * _usableWidthProportion g < 4 * _sphereRadius g ->
  (initialNumParticlesInLayer g <= 0)%Z.
Proof.
  intros Hr Hw. unfold initialNumParticlesInLayer, Math_floor.
  assert (H : usableWidth g / (_sphereRadius g * 2) < 1).
  { apply Qlt_shift_div_r; [lra|]. unfold usableWidth. lra. }
  assert (A : (Qfloor (usableWidth g / (_sphereRadius g * 2)) < 1)%Z).
  { rewrite Zlt_Qlt. eapply Qle_lt_trans; [apply Qfloor_le|exact H]. }
  lia.
Qed.

(** X5: in a bucket whose usable width leaves no room for one sphere
    ([width * usableWidthProportion < 4 * sphereRadius], so that the number
    of slots of the bottom layer is 0 or less), the nearest-open search has
    no location at all, whatever the members are, and
    [getNearestOpenLocation] returns [Vector2.ZERO]. *)
Theorem narrow_bucket_has_no_open_location (w : World) (position : Vector2.t) :
  0 < _sphereRadius (self w) ->
  size_width (self w) * _usableWidthProportion (self w) < 4 * _sphereRadius (self w) ->
  openLocations w = [] /\ getNearestOpenLocation w position = Vector2.ZERO.
Proof.
  intros Hr Hw.
  assert (E : openLocations w = []).
  { destruct (openLocations w) as [|loc l] eqn:E; [reflexivity|].
    assert (Hin : In loc (openLocations w)) by (rewrite E; now left).
    apply openLocations_In in Hin. destruct Hin as (layer & j & _ & Hj & _).
    pose proof (narrow_layerSize (self w)
                  (narrow_initialNumParticlesInLayer (self w) Hr Hw) layer). lia. }
  split; [exact E|]. now apply getNearestOpenLocation_nil.
Qed.

Lemma narrow_bucket_has_no_open_location_witness :
  openLocations (emptyWorld bucket30) = []
  /\ getNearestOpenLocation (emptyWorld bucket30) (Vector2.mk 1 1) = Vector2.ZERO.
Proof.
  apply (narrow_bucket_has_no_open_location (emptyWorld bucket30) (Vector2.mk 1 1));
    vm_compute; reflexivity.
Defined.

(** X6: in a bucket without members [getFirstOpenLocation] returns the first
    slot of the bottom layer at its first test, and, if the bottom layer has
    a slot at all, [getNearestOpenLocation] returns a slot of the bottom
    layer. *)
Theorem empty_bucket_locations (w : World) (position : Vector2.t) :
  _particles w = [] ->
  (forall fuel, getFirstOpenLocation (S fuel) w = Some (slot (self w) 0 0))
  /\ ((1 <= initialNumParticlesInLayer (self w))%Z ->
      exists j, (0 <= j < initialNumParticlesInLayer (self w))%Z
                /\ getNearestOpenLocation w position = slot (self w) 0 j).
Proof.
  intro He.
  assert (Ho : forall loc, isPositionOpen w loc = true)
    by (intro loc; unfold isPositionOpen; now rewrite He).
  assert (Hc : forall loc, countSupportingParticles w loc = 0%nat)
    by (intro loc; unfold countSupportingParticles; now rewrite He).
  split.
  - intro fuel. unfold getFirstOpenLocation. cbn [getFirstOpenLocation_while].
    now rewrite Ho.
  - intro Hn.
    assert (Hin : In (slot (self w) 0 0) (openLocations w)).
    { apply openLocations_In. exists 0%nat, 0%Z. repeat split.
      - unfold highestOccupiedLayer. rewrite He. cbn. lia.
      - lia.
      - change (layerSize (self w) 0) with (initialNumParticlesInLayer (self w)). lia.
      - apply Ho. }
    assert (Hne : openLocations w <> []) by (intro E; rewrite E in Hin; destruct Hin).
    destruct (getNearestOpenLocation_closest w position Hne) as [Hr _].
    apply openLocations_In in Hr. destruct Hr as (layer & j & _ & Hj & E & _ & Ha).
    unfold admissible in Ha. rewrite Hc in Ha. cbn in Ha. rewrite orb_false_r in Ha.
    apply Z.eqb_eq in Ha. assert (layer = 0%nat) as -> by lia.
    exists j. split; [change (layerSize (self w) 0) with (initialNumParticlesInLayer (self w)) in Hj; exact Hj|exact E].
Qed.

Lemma empty_bucket_locations_witness :
  (forall fuel, getFirstOpenLocation (S fuel) (emptyWorld bucket100)
                = Some (slot bucket100 0 0))
  /\ ((1 <= initialNumParticlesInLayer bucket100)%Z ->
      exists j, (0 <= j < initialNumParticlesInLayer bucket100)%Z
                /\ getNearestOpenLocation (emptyWorld bucket100) (Vector2.mk 1 1)
                   = slot bucket100 0 j).
Proof.
  apply (empty_bucket_locations (emptyWorld bucket100) (Vector2.mk 1 1)). reflexivity.
Defined.

(** X7: when the nearest-open search has a location,
    [getNearestOpenLocation] returns a slot of one of the layers 0 to
    [highestOccupiedLayer + 1] that no member has as its destination and
    that is admissible, and among the locations of the search it is the
    first one at the least distance from the reference point: strictly
    nearer than those found before it, as near as those found after it. *)
Theorem getNearestOpenLocation_result (w : World) (position : Vector2.t) :
  openLocations w <> [] ->
  isPositionOpen w (getNearestOpenLocation w position) = true
  /\ (exists (layer : nat) (j : Z),
        (Z.of_nat layer <= highestOccupiedLayer w + 1)%Z
        /\ (0 <= j < layerSize (self w) layer)%Z
        /\ getNearestOpenLocation w position = slot (self w) layer j
        /\ admissible w (Z.of_nat layer) (slot (self w) layer j) = true)
  /\ exists before after,
       openLocations w = before ++ getNearestOpenLocation w position :: after
       /\ (forall x, In x before ->
             Vector2.distanceSquared (getNearestOpenLocation w position) position
             < Vector2.distanceSquared x position)
       /\ (forall x, In x after ->
             Vector2.distanceSquared (getNearestOpenLocation w position) position
             <= Vector2.distanceSquared x position).
Proof.
  intro Ho.
  destruct (getNearestOpenLocation_closest w position Ho) as [Hin _].
  apply openLocations_In in Hin. destruct Hin as (layer & j & Hl & Hj & E & Hopen & Ha).
  split; [exact Hopen|]. split.
  - exists layer, j. rewrite <- E. auto.
  - now apply getNearestOpenLocation_first_closest.
Qed.

Lemma getNearestOpenLocation_result_witness :
  let w := threeInBase in
  let position := Vector2.mk 30 100 in
  isPositionOpen w (getNearestOpenLocation w position) = true
  /\ (exists (layer : nat) (j : Z),
        (Z.of_nat layer <= highestOccupiedLayer w + 1)%Z
        /\ (0 <= j < layerSize (self w) layer)%Z
        /\ getNearestOpenLocation w position = slot (self w) layer j
        /\ admissible w (Z.of_nat layer) (slot (self w) layer j) = true)
  /\ exists before after,
       openLocations w = before ++ getNearestOpenLocation w position :: after
       /\ (forall x, In x before ->
             Vector2.distanceSquared (getNearestOpenLocation w position) position
             < Vector2.distanceSquared x position)
       /\ (forall x, In x after ->
             Vector2.distanceSquared (getNearestOpenLocation w position) position
             <= Vector2.distanceSquared x position).
Proof.
  apply (getNearestOpenLocation_result threeInBase (Vector2.mk 30 100)).
  vm_compute. discriminate.
Defined.

(** ** What the relayout and the extraction change *)

Lemma heap_destinationProperty_set_other p v w q :
  q <> p -> heap (destinationProperty_set p v w) q = heap w q.
Proof. intro H. cbn. apply Nat.eqb_neq in H. now rewrite H. Qed.

Lemma destinationProperty_set_sameButDestination p v w q :
  sameButDestination (heap (destinationProperty_set p v w) q) (heap w q).
Proof.
  cbn. destruct (Nat.eqb q p) eqn:E; [|repeat split].
  apply Nat.eqb_eq in E. subst. repeat split.
Qed.

(** What a relayout leaves alone. *)
Lemma relayoutBucketParticles_frame (fuel : nat) (w w' : World) :
  relayoutBucketParticles fuel w = Returned w' ->
  _particles w' = _particles w
  /\ self w' = self w
  /\ (forall q, sameButDestination (heap w' q) (heap w q))
  /\ (forall q, ~ In q (_particles w) -> heap w' q = heap w q).
Proof.
  revert w. induction fuel as [|fuel IH]; intros w; [discriminate|].
  cbn [relayoutBucketParticles].
  destruct (relayout_for w (_particles w)) as [p|] eqn:E.
  - intro H. apply IH in H. destruct H as (Hp & Hs & Hq & Hn).
    apply relayout_for_some in E. destruct E as [Hin _].
    split; [exact Hp|]. split; [exact Hs|]. split.
    + intro q. specialize (Hq q).
      pose proof (destinationProperty_set_sameButDestination p
                    (getNearestOpenLocation w (destination w p)) w q) as H.
      unfold sameButDestination in *. intuition congruence.
    + intros q Hq'. rewrite Hn by exact Hq'.
      apply heap_destinationProperty_set_other. intros ->. contradiction.
  - intros [= <-]. repeat split.
Qed.

(** X8: a relayout that returns has written destinations only, and only
    those of members: the array of members and the geometry are the same,
    every particle has kept its position, its held-by-user flag, its
    listeners and its stored removal listener, a particle that is not a
    member is unchanged, and every mutation that was performed is a
    [destinationProperty.set]. *)
Theorem relayoutBucketParticles_moves_members_only (fuel : nat) (w w' : World) :
  relayoutBucketParticles fuel w = Returned w' ->
  _particles w' = _particles w
  /\ self w' = self w
  /\ (forall q, sameButDestination (heap w' q) (heap w q))
  /\ (forall q, ~ In q (_particles w) -> heap w' q = heap w q)
  /\ exists moves, log w' = moves ++ log w /\ Forall isMove moves.
Proof.
  intro H. destruct (relayoutBucketParticles_frame fuel w w' H) as (A & B & C & D).
  split; [exact A|]. split; [exact B|]. split; [exact C|]. split; [exact D|].
  exact (relayoutBucketParticles_log fuel w w' H).
Qed.

Lemma relayoutBucketParticles_moves_members_only_witness :
  _particles pyramid5_without_1 = _particles (evicted 1%nat pyramid5)
  /\ self pyramid5_without_1 = self (evicted 1%nat pyramid5)
  /\ (forall q, sameButDestination (heap pyramid5_without_1 q)
                  (heap (evicted 1%nat pyramid5) q))
  /\ (forall q, ~ In q (_particles (evicted 1%nat pyramid5)) ->
                heap pyramid5_without_1 q = heap (evicted 1%nat pyramid5) q)
  /\ exists moves, log pyramid5_without_1 = moves ++ log (evicted 1%nat pyramid5)
                   /\ Forall isMove moves.
Proof.
  apply (relayoutBucketParticles_moves_members_only 3 (evicted 1%nat pyramid5)
           pyramid5_without_1).
  vm_compute. reflexivity.
Defined.

Lemma closestParticle_In w location c :
  closestParticle w location = Some c -> In c (_particles w).
Proof.
  unfold closestParticle. destruct (_particles w) as [|p l]; [discriminate|].
  cbn [closestParticle_forEach].
  destruct (closestParticle_forEach_first w location l p) as (r & bf & af & Hr & Hs & _).
  rewrite Hr. intros [= <-]. rewrite Hs. apply in_or_app. right. now left.
Qed.

Lemma grabbed_spec c l w :
  userControlledListeners (heap w c) = [l] ->
  bucketRemovalListener (heap w c) = Some l ->
  _particles (grabbed c w) = without (_particles w) c
  /\ self (grabbed c w) = self w
  /\ userControlledProperty (heap (grabbed c w) c) = true
  /\ userControlledListeners (heap (grabbed c w) c) = []
  /\ bucketRemovalListener (heap (grabbed c w) c) = None
  /\ (forall q, destination (grabbed c w) q = destination w q)
  /\ (forall q, q <> c -> heap (grabbed c w) q = heap w q).
Proof.
  intros Hl Hb. unfold grabbed, evicted. cbn [set_particles emit heap update].
  rewrite Nat.eqb_refl. cbn [bucketRemovalListener]. rewrite Hb.
  repeat split.
  - cbn. now rewrite !Nat.eqb_refl.
  - cbn. rewrite !Nat.eqb_refl. cbn. rewrite Hl. cbn. now rewrite Listener_eqb_refl.
  - cbn. now rewrite !Nat.eqb_refl.
  - intro q. unfold destination. cbn. destruct (Nat.eqb q c) eqn:E; [|reflexivity].
    apply Nat.eqb_eq in E. subst. now rewrite ?Nat.eqb_refl.
  - intros q Hq. cbn. apply Nat.eqb_neq in Hq. now rewrite Hq.
Qed.

(** X9: let [c] be the member that [extractClosestParticle] selects, not
    held by the user, whose only listener is the removal listener that the
    bucket stored on it.  Then the call is the relayout of the world in which
    [c] has been grabbed and evicted, and when it returns it returns [c],
    which is no member any more (all other entries are kept in their order),
    is flagged as held by the user, has no listener and no stored removal
    listener left; and no member that remains is dangling. *)
Theorem extractClosestParticle_takes_out (fuel : nat) (location : Vector2.t) (w : World)
    (c : ParticleId) (l : Listener) :
  closestParticle w location = Some c ->
  userControlledProperty (heap w c) = false ->
  userControlledListeners (heap w c) = [l] ->
  bucketRemovalListener (heap w c) = Some l ->
  captured l = c ->
  extractClosestParticle fuel location w
  = (w' <- relayoutBucketParticles fuel (grabbed c w) ;; Returned (Some c, w'))
  /\ forall r w', extractClosestParticle fuel location w = Returned (r, w') ->
       r = Some c
       /\ _particles w' = without (_particles w) c
       /\ containsParticle w' c = false
       /\ userControlledProperty (heap w' c) = true
       /\ userControlledListeners (heap w' c) = []
       /\ bucketRemovalListener (heap w' c) = None
       /\ noDangling w'.
Proof.
  intros Hc Hu Hl Hb Hcap.
  pose proof (closestParticle_In w location c Hc) as Hin.
  destruct (grabbed_spec c l w Hl Hb) as (Gp & Gs & Gu & Gl & Gb & Gd & Gq).
  assert (E : extractClosestParticle fuel location w
              = (w' <- relayoutBucketParticles fuel (grabbed c w) ;; Returned (Some c, w'))).
  { unfold extractClosestParticle. rewrite Hc. unfold userControlledProperty_set.
    rewrite Hu. cbn [Bool.eqb]. rewrite Hl. cbn [notifyListeners].
    unfold particleRemovedListener. rewrite Hcap.
    set (wf := emit (EvUserControlled c true) _).
    assert (Hcont : containsParticle wf c = true) by (apply containsParticle_In; exact Hin).
    rewrite (removeParticle_member fuel c false wf Hcont).
    change (evicted c wf) with (grabbed c w).
    destruct (relayoutBucketParticles fuel (grabbed c w)) as [w1| |] eqn:R; try reflexivity.
    cbn [bind].
    destruct (relayoutBucketParticles_frame _ _ _ R) as (_ & _ & Hq & _).
    destruct (Hq c) as (_ & _ & _ & Hbq). rewrite Hbq, Gb. reflexivity. }
  split; [exact E|].
  intros r w'. rewrite E.
  destruct (relayoutBucketParticles fuel (grabbed c w)) as [w1| |] eqn:R; try discriminate.
  cbn [bind]. intros [= <- <-].
  destruct (relayoutBucketParticles_frame _ _ _ R) as (Hp & _ & Hq & _).
  destruct (Hq c) as (_ & Hu1 & Hl1 & Hb1).
  split; [reflexivity|]. split; [now rewrite Hp|]. split.
  { destruct (containsParticle w1 c) eqn:Ec; [|reflexivity].
    apply containsParticle_In in Ec. rewrite Hp, Gp in Ec. apply without_In in Ec.
    destruct Ec as [_ Ec]. congruence. }
  split; [congruence|]. split; [congruence|]. split; [congruence|].
  intros p Hp'. eapply relayoutBucketParticles_no_dangling; eauto.
Qed.

Lemma extractClosestParticle_takes_out_witness :
  let location := Vector2.mk 0 20 in
  let c := 5%nat in
  extractClosestParticle 3 location pyramid5
  = (w' <- relayoutBucketParticles 3 (grabbed c pyramid5) ;; Returned (Some c, w'))
  /\ forall r w', extractClosestParticle 3 location pyramid5 = Returned (r, w') ->
       r = Some c
       /\ _particles w' = without (_particles pyramid5) c
       /\ containsParticle w' c = false
       /\ userControlledProperty (heap w' c) = true
       /\ userControlledListeners (heap w' c) = []
       /\ bucketRemovalListener (heap w' c) = None
       /\ noDangling w'.
Proof.
  apply (extractClosestParticle_takes_out 3 (Vector2.mk 0 20) pyramid5 5%nat
           (mkListener 4%nat 5%nat)); vm_compute; reflexivity.
Defined.

(** ** Adding and removing again, and reset *)

Lemma without_not_In l p : ~ In p l -> without l p = l.
Proof.
  intro H. unfold without. induction l as [|q l IH]; [reflexivity|].
  cbn [filter]. destruct (Nat.eqb q p) eqn:E.
  - apply Nat.eqb_eq in E. subst. exfalso. apply H. now left.
  - cbn [negb]. f_equal. apply IH. intro Hin. apply H. now right.
Qed.

Lemma without_app_last l p : ~ In p l -> without (l ++ [p]) p = l.
Proof.
  intro H. unfold without. rewrite filter_app. cbn [filter]. rewrite Nat.eqb_refl.
  cbn [negb]. rewrite app_nil_r. now apply without_not_In.
Qed.

Lemma filter_fresh_listener (ls : list Listener) (new : Listener) :
  (forall l, In l ls -> closureId l <> closureId new) ->
  filter (fun l' => negb (Listener_eqb l' new)) (ls ++ [new]) = ls.
Proof.
  intro H. rewrite filter_app. cbn [filter]. rewrite Listener_eqb_refl. cbn [negb].
  rewrite app_nil_r. induction ls as [|a ls IH]; [reflexivity|].
  cbn [filter]. assert (E : Listener_eqb a new = false).
  { unfold Listener_eqb. apply andb_false_iff. left. apply Nat.eqb_neq.
    apply H. now left. }
  rewrite E. cbn [negb]. f_equal. apply IH. intros l Hl. apply H. now right.
Qed.

(** What is put back when a sphere that was added is removed again. *)
Lemma evicted_addParticle p animate w :
  ~ In p (_particles w) ->
  (forall l, In l (userControlledListeners (heap w p)) -> closureId l <> closures w) ->
  _particles (evicted p (addParticle p animate w)) = _particles w
  /\ self (evicted p (addParticle p animate w)) = self w
  /\ (forall q, q <> p -> heap (evicted p (addParticle p animate w)) q = heap w q)
  /\ userControlledListeners (heap (evicted p (addParticle p animate w)) p)
     = userControlledListeners (heap w p)
  /\ bucketRemovalListener (heap (evicted p (addParticle p animate w)) p) = None
  /\ destination (evicted p (addParticle p animate w)) p = destination w p
  /\ userControlledProperty (heap (evicted p (addParticle p animate w)) p)
     = userControlledProperty (heap w p).
Proof.
  intros Hn Hf.
  destruct (addParticle_again p animate w) as (_ & Hb & _ & _). cbn zeta in Hb.
  split.
  { rewrite evicted_particles, addParticle_particles. now apply without_app_last. }
  split.
  { now rewrite evicted_self, addParticle_self. }
  assert (E : evicted p (addParticle p animate w)
              = set_bucketRemovalListener p None
                  (userControlledProperty_unlink p (mkListener (closures w) p)
                     (set_particles (without (_particles (addParticle p animate w)) p)
                        (addParticle p animate w)))).
  { unfold evicted. cbn [set_particles emit heap]. now rewrite Hb. }
  split.
  { intros q Hq. apply Nat.eqb_neq in Hq. rewrite E. unfold addParticle.
    destruct animate; cbn; rewrite ?Hq; reflexivity. }
  split.
  { rewrite E. unfold addParticle.
    destruct animate; cbn; rewrite ?Nat.eqb_refl; cbn; rewrite ?Nat.eqb_refl; cbn;
      apply (filter_fresh_listener _ (mkListener (closures w) p)); exact Hf. }
  split; [apply evicted_listener|]. split.
  { rewrite evicted_destination. apply addParticle_destination. }
  rewrite E. unfold addParticle.
  destruct animate; cbn; rewrite ?Nat.eqb_refl; cbn; rewrite ?Nat.eqb_refl; reflexivity.
Qed.

Lemma countSupportingParticles_for_ext w w' position l :
  self w = self w' ->
  (forall q, In q l -> destination w q = destination w' q) ->
  forall count, countSupportingParticles_for w position l count
                = countSupportingParticles_for w' position l count.
Proof.
  intros Hs. induction l as [|p l IH]; intros Hd count; [reflexivity|].
  cbn [countSupportingParticles_for]. rewrite Hs, (Hd p) by now left.
  destruct (_ && _); apply IH; intros q Hq; apply Hd; now right.
Qed.

Lemma noDangling_ext w w' :
  self w = self w' -> _particles w = _particles w' ->
  (forall q, In q (_particles w) -> destination w q = destination w' q) ->
  noDangling w -> noDangling w'.
Proof.
  intros Hs Hp Hd Hn q Hq. rewrite <- Hp in Hq. specialize (Hn q Hq).
  unfold isDangling, countSupportingParticles in *.
  rewrite <- Hs, <- Hp, <- (Hd q Hq).
  rewrite <- (countSupportingParticles_for_ext w w' _ _ Hs Hd). exact Hn.
Qed.

Lemma add_then_remove_at (fuel : nat) (p : ParticleId) (animate skipLayout : bool)
    (v : Vector2.t) (w : World) :
  ~ In p (_particles w) ->
  (forall l, In l (userControlledListeners (heap w p)) -> closureId l <> closures w) ->
  skipLayout = true \/ noDangling w ->
  exists w2,
    removeParticle (S fuel) p skipLayout
      (addParticle p animate (destinationProperty_set p v w)) = Returned w2
    /\ _particles w2 = _particles w
    /\ (forall q, q <> p -> heap w2 q = heap w q)
    /\ userControlledListeners (heap w2 p) = userControlledListeners (heap w p)
    /\ bucketRemovalListener (heap w2 p) = None.
Proof.
  intros Hn Hf Hor.
  set (w0 := destinationProperty_set p v w).
  assert (Hn0 : ~ In p (_particles w0)) by exact Hn.
  assert (Hf0 : forall l, In l (userControlledListeners (heap w0 p)) ->
                          closureId l <> closures w0).
  { intros l Hl. apply Hf. unfold w0 in Hl. cbn in Hl. rewrite Nat.eqb_refl in Hl.
    exact Hl. }
  destruct (evicted_addParticle p animate w0 Hn0 Hf0) as (Ep & Es & Eq & El & Eb & _).
  exists (evicted p (addParticle p animate w0)).
  assert (Hq : forall q, q <> p -> heap (evicted p (addParticle p animate w0)) q = heap w q).
  { intros q Hq. rewrite Eq by exact Hq. now apply heap_destinationProperty_set_other. }
  split.
  - rewrite removeParticle_member.
    2:{ apply containsParticle_In. rewrite addParticle_particles.
        apply in_or_app. right. now left. }
    destruct skipLayout; [reflexivity|].
    destruct Hor as [Hor|Hor]; [discriminate|].
    apply relayoutBucketParticles_stable.
    apply (noDangling_ext w); try (symmetry; assumption); [|exact Hor].
    intros q Hin. unfold destination. rewrite Hq; [reflexivity|].
    intros ->. contradiction.
  - split; [exact Ep|]. split; [exact Hq|]. split; [|exact Eb].
    rewrite El. unfold w0. cbn. now rewrite Nat.eqb_refl.
Qed.

(** X10: adding a sphere that is not a member (by [addParticleNearestOpen]
    or by a returning [addParticleFirstOpen]) and removing it at once
    restores the bucket: [removeParticle] returns, the array of members is
    the one before the addition, every other particle is unchanged, the
    listeners of the sphere are the ones it had, and no removal listener is
    stored on it.  The listeners of the sphere must not have been made after
    the latest closure of the bucket, and either the relayout is skipped or
    no member was dangling before. *)
Theorem add_then_remove (fuel : nat) (p : ParticleId) (animate skipLayout : bool) (w : World) :
  ~ In p (_particles w) ->
  (forall l, In l (userControlledListeners (heap w p)) -> closureId l <> closures w) ->
  skipLayout = true \/ noDangling w ->
  let restored w1 :=
    exists w2,
      removeParticle (S fuel) p skipLayout w1 = Returned w2
      /\ _particles w2 = _particles w
      /\ (forall q, q <> p -> heap w2 q = heap w q)
      /\ userControlledListeners (heap w2 p) = userControlledListeners (heap w p)
      /\ bucketRemovalListener (heap w2 p) = None in
  restored (addParticleNearestOpen p animate w)
  /\ forall fuel1 w1, addParticleFirstOpen fuel1 p animate w = Returned w1 -> restored w1.
Proof.
  intros Hn Hf Hor restored. split.
  - now apply add_then_remove_at.
  - intros fuel1 w1. unfold addParticleFirstOpen.
    destruct (getFirstOpenLocation fuel1 w) as [loc|]; [|discriminate].
    intros [= <-]. now apply add_then_remove_at.
Qed.

Lemma add_then_remove_witness :
  let restored w1 :=
    exists w2,
      removeParticle 2 2%nat false w1 = Returned w2
      /\ _particles w2 = _particles single
      /\ (forall q, q <> 2%nat -> heap w2 q = heap single q)
      /\ userControlledListeners (heap w2 2%nat) = userControlledListeners (heap single 2%nat)
      /\ bucketRemovalListener (heap w2 2%nat) = None in
  restored (addParticleNearestOpen 2%nat true single)
  /\ forall fuel1 w1, addParticleFirstOpen fuel1 2%nat true single = Returned w1 ->
                      restored w1.
Proof.
  apply (add_then_remove 1 2%nat true false single).
  - vm_compute. intuition discriminate.
  - vm_compute. tauto.
  - right. intros p Hp. vm_compute in Hp. destruct Hp as [<-|[]]. vm_compute. reflexivity.
Defined.

Lemma reset_forEach_frame l : forall w,
  _particles (reset_forEach l w) = _particles w
  /\ self (reset_forEach l w) = self w
  /\ (forall q, positionProperty (heap (reset_forEach l w) q) = positionProperty (heap w q)
                /\ destinationProperty (heap (reset_forEach l w) q)
                   = destinationProperty (heap w q)
                /\ userControlledProperty (heap (reset_forEach l w) q)
                   = userControlledProperty (heap w q))
  /\ (forall q, ~ In q l -> heap (reset_forEach l w) q = heap w q)
  /\ (forall q, bucketRemovalListener (heap w q) = None ->
                bucketRemovalListener (heap (reset_forEach l w) q) = None)
  /\ (forall q x, ~ In x (userControlledListeners (heap w q)) ->
                  ~ In x (userControlledListeners (heap (reset_forEach l w) q))).
Proof.
  induction l as [|p l IH]; intro w.
  - cbn. repeat split; auto.
  - cbn [reset_forEach].
    set (w1 := match bucketRemovalListener (heap w p) with
               | Some l0 => set_bucketRemovalListener p None
                              (userControlledProperty_unlink p l0 w)
               | None => w
               end).
    destruct (IH w1) as (Hp & Hs & Hf & Hn & Hb & Hl).
    assert (S1 : _particles w1 = _particles w /\ self w1 = self w)
      by (unfold w1; destruct (bucketRemovalListener (heap w p)); split; reflexivity).
    assert (F1 : forall q, positionProperty (heap w1 q) = positionProperty (heap w q)
                           /\ destinationProperty (heap w1 q) = destinationProperty (heap w q)
                           /\ userControlledProperty (heap w1 q)
                              = userControlledProperty (heap w q)).
    { intro q. unfold w1. destruct (bucketRemovalListener (heap w p)); [|auto].
      cbn. destruct (Nat.eqb q p) eqn:E; [|auto].
      apply Nat.eqb_eq in E. subst. rewrite ?Nat.eqb_refl. auto. }
    assert (N1 : forall q, q <> p -> heap w1 q = heap w q).
    { intros q Hq. apply Nat.eqb_neq in Hq. unfold w1.
      destruct (bucketRemovalListener (heap w p)); [|reflexivity]. cbn. now rewrite Hq. }
    assert (B1 : forall q, bucketRemovalListener (heap w q) = None ->
                           bucketRemovalListener (heap w1 q) = None).
    { intros q Hq. unfold w1. destruct (bucketRemovalListener (heap w p)); [|exact Hq].
      cbn. destruct (Nat.eqb q p); [reflexivity|exact Hq]. }
    assert (L1 : forall q x, ~ In x (userControlledListeners (heap w q)) ->
                             ~ In x (userControlledListeners (heap w1 q))).
    { intros q x Hx. unfold w1. destruct (bucketRemovalListener (heap w p)); [|exact Hx].
      cbn. destruct (Nat.eqb q p) eqn:E; [|exact Hx].
      apply Nat.eqb_eq in E. subst. rewrite ?Nat.eqb_refl. cbn.
      rewrite filter_In. tauto. }
    destruct S1 as [S1 S2].
    split; [congruence|]. split; [congruence|]. split.
    { intro q. destruct (Hf q) as (A & B & C). destruct (F1 q) as (A' & B' & C').
      repeat split; congruence. }
    split.
    { intros q Hq. rewrite Hn by (intro H; apply Hq; now right).
      apply N1. intros ->. apply Hq. now left. }
    split; [intros q Hq; now apply Hb, B1|].
    intros q x Hx. now apply Hl, L1.
Qed.

Lemma reset_forEach_detaches l : forall w p,
  In p l ->
  bucketRemovalListener (heap (reset_forEach l w) p) = None
  /\ forall x, bucketRemovalListener (heap w p) = Some x ->
               ~ In x (userControlledListeners (heap (reset_forEach l w) p)).
Proof.
  induction l as [|a l IH]; intros w p Hin; [destruct Hin|].
  cbn [reset_forEach].
  set (w1 := match bucketRemovalListener (heap w a) with
             | Some l0 => set_bucketRemovalListener a None
                            (userControlledProperty_unlink a l0 w)
             | None => w
             end).
  destruct (reset_forEach_frame l w1) as (_ & _ & _ & Hn & Hb & Hl).
  destruct (Nat.eq_dec p a) as [->|Hne].
  - assert (B : bucketRemovalListener (heap w1 a) = None).
    { unfold w1. destruct (bucketRemovalListener (heap w a)) eqn:E; [|exact E].
      cbn. now rewrite Nat.eqb_refl. }
    split; [now apply Hb|].
    intros x Hx. apply Hl. unfold w1. rewrite Hx. cbn. rewrite !Nat.eqb_refl. cbn.
    rewrite filter_In, Listener_eqb_refl. intros [_ H]. discriminate.
  - destruct Hin as [->|Hin]; [congruence|].
    assert (E : heap w1 p = heap w p).
    { apply Nat.eqb_neq in Hne. unfold w1.
      destruct (bucketRemovalListener (heap w a)); [|reflexivity]. cbn. now rewrite Hne. }
    destruct (IH w1 p Hin) as [H1 H2]. split; [exact H1|].
    intros x Hx. apply H2. now rewrite E.
Qed.

(** X11: [reset] empties the array of members; on every former member no
    removal listener is stored any more, and the one that was stored is not
    linked any more; particles that were no members are unchanged, and no
    position, destination or held-by-user flag changes. *)
Theorem reset_empties_and_detaches (w : World) :
  _particles (reset w) = []
  /\ (forall p, In p (_particles w) ->
        bucketRemovalListener (heap (reset w) p) = None
        /\ forall l, bucketRemovalListener (heap w p) = Some l ->
                     ~ In l (userControlledListeners (heap (reset w) p)))
  /\ (forall q, ~ In q (_particles w) -> heap (reset w) q = heap w q)
  /\ (forall q, positionProperty (heap (reset w) q) = positionProperty (heap w q)
                /\ destination (reset w) q = destination w q
                /\ userControlledProperty (heap (reset w) q)
                   = userControlledProperty (heap w q)).
Proof.
  unfold reset. cbn [set_particles emit _particles heap].
  destruct (reset_forEach_frame (_particles w) w) as (_ & _ & Hf & Hn & _ & _).
  split; [reflexivity|]. split; [|split].
  - intros p Hp. unfold destination. cbn.
    apply (reset_forEach_detaches (_particles w) w p Hp).
  - intros q Hq. cbn. now apply Hn.
  - intro q. unfold destination. cbn. apply Hf.
Qed.

(** X12: where [assert] is not defined (production builds), [removeParticle]
    of a particle that is not a member, with the relayout skipped, returns:
    the array of members and all destinations are the same, other particles
    are unchanged, and a removal listener that is stored on the particle
    (by another bucket, say) is unlinked and deleted all the same. *)
Theorem removeParticle_of_non_member_unchecked (fuel : nat) (p : ParticleId) (w : World) :
  assertEnabled w = false ->
  ~ In p (_particles w) ->
  exists w1,
    removeParticle fuel p true w = Returned w1
    /\ _particles w1 = _particles w
    /\ (forall q, destination w1 q = destination w q)
    /\ (forall q, q <> p -> heap w1 q = heap w q)
    /\ bucketRemovalListener (heap w1 p) = None
    /\ (forall l, bucketRemovalListener (heap w p) = Some l ->
                  ~ In l (userControlledListeners (heap w1 p))).
Proof.
  intros Ha Hn. exists (evicted p w). split.
  - unfold removeParticle. rewrite Ha. cbn [andb]. reflexivity.
  - split; [rewrite evicted_particles; now apply without_not_In|].
    split; [apply evicted_destination|]. split.
    + intros q Hq. apply Nat.eqb_neq in Hq. unfold evicted. cbn [set_particles emit heap].
      destruct (bucketRemovalListener (heap w p)); [|reflexivity]. cbn. now rewrite Hq.
    + split; [apply evicted_listener|apply evicted_unlinked].
Qed.

Lemma removeParticle_of_non_member_unchecked_witness :
  let w := newWorld bucket100 (fun _ => blank) false in
  exists w1,
    removeParticle 0 1%nat true w = Returned w1
    /\ _particles w1 = _particles w
    /\ (forall q, destination w1 q = destination w q)
    /\ (forall q, q <> 1%nat -> heap w1 q = heap w q)
    /\ bucketRemovalListener (heap w1 1%nat) = None
    /\ (forall l, bucketRemovalListener (heap w 1%nat) = Some l ->
                  ~ In l (userControlledListeners (heap w1 1%nat))).
Proof.
  apply (removeParticle_of_non_member_unchecked 0 1%nat
           (newWorld bucket100 (fun _ => blank) false)).
  - reflexivity.
  - simpl. tauto.
Defined.

(** ** Distinct destinations *)

Lemma equals_sym a b : Vector2.equals a b = Vector2.equals b a.
Proof.
  unfold Vector2.equals. f_equal; apply Qeq_bool_eq_iff; split; intro H; now symmetry.
Qed.

Lemma isPositionOpen_for_app w loc l1 l2 :
  isPositionOpen_for w loc (l1 ++ l2)
  = isPositionOpen_for w loc l1 && isPositionOpen_for w loc l2.
Proof.
  induction l1 as [|p l1 IH]; [reflexivity|]. cbn [app isPositionOpen_for].
  destruct (Vector2.equals (destination w p) loc); [reflexivity|exact IH].
Qed.

Lemma isPositionOpen_for_ext w w' loc l :
  (forall q, In q l -> destination w' q = destination w q) ->
  isPositionOpen_for w' loc l = isPositionOpen_for w loc l.
Proof.
  induction l as [|p l IH]; intro H; [reflexivity|]. cbn [isPositionOpen_for].
  rewrite (H p) by now left. rewrite IH; [reflexivity|].
  intros q Hq. apply H. now right.
Qed.

Lemma distinctDestinations_for_ext w w' l :
  (forall q, In q l -> destination w' q = destination w q) ->
  distinctDestinations_for w l -> distinctDestinations_for w' l.
Proof.
  induction l as [|p l IH]; intros H Hd; [exact I|]. cbn in *. destruct Hd as [H1 H2].
  split.
  - rewrite (H p) by now left. rewrite (isPositionOpen_for_ext w w'); [exact H1|].
    intros q Hq. apply H. now right.
  - apply IH; [|exact H2]. intros q Hq. apply H. now right.
Qed.

Lemma distinctDestinations_for_snoc w l p :
  distinctDestinations_for w l ->
  isPositionOpen_for w (destination w p) l = true ->
  distinctDestinations_for w (l ++ [p]).
Proof.
  induction l as [|a l IH]; intros Hd Ho; cbn [app distinctDestinations_for].
  - cbn. auto.
  - cbn in Hd. destruct Hd as [H1 H2]. cbn [isPositionOpen_for] in Ho.
    destruct (Vector2.equals (destination w a) (destination w p)) eqn:E; [discriminate|].
    split; [|now apply IH].
    rewrite isPositionOpen_for_app, H1. cbn [isPositionOpen_for andb].
    now rewrite equals_sym, E.
Qed.

Lemma isPositionOpen_for_without w loc l p :
  isPositionOpen_for w loc l = true -> isPositionOpen_for w loc (without l p) = true.
Proof.
  rewrite !isPositionOpen_for_true. intros H q Hq. apply without_In in Hq.
  apply H. tauto.
Qed.

Lemma distinctDestinations_for_without w l p :
  distinctDestinations_for w l -> distinctDestinations_for w (without l p).
Proof.
  induction l as [|a l IH]; intro Hd; [exact I|]. cbn in Hd. destruct Hd as [H1 H2].
  unfold without in *. cbn [filter]. destruct (negb (Nat.eqb a p)); [|now apply IH].
  cbn. split; [now apply isPositionOpen_for_without|now apply IH].
Qed.

(** A sphere that was not a member, added at a location that is open. *)
Lemma added_distinctDestinations p animate v w :
  ~ In p (_particles w) ->
  isPositionOpen w v = true ->
  distinctDestinations w ->
  distinctDestinations (addParticle p animate (destinationProperty_set p v w)).
Proof.
  intros Hn Ho Hd. unfold distinctDestinations. rewrite addParticle_particles.
  set (w' := addParticle p animate (destinationProperty_set p v w)).
  assert (Hq : forall q, In q (_particles w) -> destination w' q = destination w q).
  { intros q Hq. unfold w'. rewrite addParticle_destination.
    apply destinationProperty_set_other. intros ->. contradiction. }
  assert (Hp : destination w' p = v).
  { unfold w'. rewrite addParticle_destination. apply destinationProperty_set_same. }
  cbn [_particles destinationProperty_set emit update].
  apply distinctDestinations_for_snoc.
  - now apply (distinctDestinations_for_ext w).
  - rewrite Hp. rewrite (isPositionOpen_for_ext w w'); [exact Ho|exact Hq].
Qed.

(** X13: when no two entries of the array of members have equal
    destinations, this is still so after [addParticleFirstOpen] of a sphere
    that is not a member, after [addParticleNearestOpen] of such a sphere
    when the search has an open location, and after [removeParticle] without
    relayout. *)
Theorem distinct_destinations_kept (p : ParticleId) (animate : bool) (w : World) :
  distinctDestinations w ->
  (~ In p (_particles w) ->
   forall fuel w', addParticleFirstOpen fuel p animate w = Returned w' ->
                   distinctDestinations w')
  /\ (~ In p (_particles w) -> openLocations w <> [] ->
      distinctDestinations (addParticleNearestOpen p animate w))
  /\ (forall fuel w', removeParticle fuel p true w = Returned w' -> distinctDestinations w').
Proof.
  intro Hd. split; [|split].
  - intros Hn fuel w'. unfold addParticleFirstOpen.
    destruct (getFirstOpenLocation fuel w) as [loc|] eqn:E; [|discriminate].
    intros [= <-]. apply added_distinctDestinations; try assumption.
    eapply getFirstOpenLocation_while_open. exact E.
  - intros Hn Ho. apply added_distinctDestinations; try assumption.
    destruct (getNearestOpenLocation_closest w (destination w p) Ho) as [Hin _].
    apply openLocations_In in Hin. now destruct Hin as (_ & _ & _ & _ & _ & H & _).
  - intros fuel w'. unfold removeParticle.
    destruct (assertEnabled w && negb (containsParticle w p)); [discriminate|].
    fold (evicted p w). cbn [negb]. intros [= <-].
    unfold distinctDestinations. rewrite evicted_particles.
    apply distinctDestinations_for_without.
    apply (distinctDestinations_for_ext w); [|exact Hd].
    intros q _. apply evicted_destination.
Qed.

Lemma distinct_destinations_kept_witness :
  (~ In 2%nat (_particles single) ->
   forall fuel w', addParticleFirstOpen fuel 2%nat false single = Returned w' ->
                   distinctDestinations w')
  /\ (~ In 2%nat (_particles single) -> openLocations single <> [] ->
      distinctDestinations (addParticleNearestOpen 2%nat false single))
  /\ (forall fuel w', removeParticle fuel 2%nat true single = Returned w' ->
                      distinctDestinations w').
Proof.
  apply (distinct_destinations_kept 2%nat false single). vm_compute. auto.
Defined.

(** X14: for a positive sphere radius, when no member is dangling and the
    nearest-open search has a location, a relayout run after
    [addParticleNearestOpen] of a sphere that is not a member returns at its
    first pass and changes nothing. *)
Theorem relayout_after_addParticleNearestOpen (fuel : nat) (p : ParticleId) (animate : bool)
    (w : World) :
  0 < _sphereRadius (self w) ->
  ~ In p (_particles w) ->
  openLocations w <> [] ->
  noDangling w ->
  relayoutBucketParticles (S fuel) (addParticleNearestOpen p animate w)
  = Returned (addParticleNearestOpen p animate w).
Proof.
  intros Hr Hn Ho Hw. apply relayoutBucketParticles_stable.
  apply (operation_noDangling w); [exact Hr|exact Hw|].
  now apply op_addParticleNearestOpen.
Qed.

Lemma relayout_after_addParticleNearestOpen_witness :
  relayoutBucketParticles 1 (addParticleNearestOpen 2%nat false single)
  = Returned (addParticleNearestOpen 2%nat false single).
Proof.
  apply (relayout_after_addParticleNearestOpen 0 2%nat false single).
  - vm_compute. reflexivity.
  - vm_compute. intuition discriminate.
  - vm_compute. discriminate.
  - intros p Hp. vm_compute in Hp. destruct Hp as [<-|[]]. vm_compute. reflexivity.
Defined.

(** X15: an addition with [animate] false sets the position of the sphere
    to its new destination; with [animate] true the position is left as it
    was; in both cases no other particle is changed. *)
Theorem add_position (p : ParticleId) (w : World) :
  let snapped w' := positionProperty (heap w' p) = destination w' p in
  let kept w' := positionProperty (heap w' p) = positionProperty (heap w p) in
  snapped (addParticleNearestOpen p false w)
  /\ kept (addParticleNearestOpen p true w)
  /\ (forall fuel w', addParticleFirstOpen fuel p false w = Returned w' -> snapped w')
  /\ (forall fuel w', addParticleFirstOpen fuel p true w = Returned w' -> kept w')
  /\ (forall animate q, q <> p ->
        heap (addParticleNearestOpen p animate w) q = heap w q
        /\ forall fuel w', addParticleFirstOpen fuel p animate w = Returned w' ->
                           heap w' q = heap w q).
Proof.
  cbn zeta.
  assert (S : forall v, positionProperty (heap (addParticle p false
                          (destinationProperty_set p v w)) p)
                        = destination (addParticle p false (destinationProperty_set p v w)) p).
  { intro v. unfold addParticle, destination. cbn. now rewrite !Nat.eqb_refl. }
  assert (K : forall v, positionProperty (heap (addParticle p true
                          (destinationProperty_set p v w)) p)
                        = positionProperty (heap w p)).
  { intro v. unfold addParticle. cbn. now rewrite !Nat.eqb_refl. }
  assert (O : forall animate v q, q <> p ->
                heap (addParticle p animate (destinationProperty_set p v w)) q = heap w q).
  { intros animate v q Hq. apply Nat.eqb_neq in Hq. unfold addParticle.
    destruct animate; cbn; now rewrite ?Hq. }
  split; [apply S|]. split; [apply K|]. split; [|split].
  - intros fuel w'. unfold addParticleFirstOpen.
    destruct (getFirstOpenLocation fuel w); [|discriminate]. intros [= <-]. apply S.
  - intros fuel w'. unfold addParticleFirstOpen.
    destruct (getFirstOpenLocation fuel w); [|discriminate]. intros [= <-]. apply K.
  - intros animate q Hq. split; [now apply O|].
    intros fuel w'. unfold addParticleFirstOpen.
    destruct (getFirstOpenLocation fuel w); [|discriminate]. intros [= <-]. now apply O.
Qed.

(** ** The shape of the pyramid and the supporters of a slot *)

Lemma layerShape_above_apex g (k : nat) :
  (1 <= initialNumParticlesInLayer g)%Z ->
  let apex := Z.to_nat (initialNumParticlesInLayer g - 1) in
  layerSize g (apex + k) = 1%Z
  /\ fst (layerShape g (apex + k)) == fst (layerShape g apex).
Proof.
  intros Hn apex. induction k as [|k [IH1 IH2]].
  - rewrite Nat.add_0_r. split; [|reflexivity].
    rewrite pyramid_layerSize by (unfold apex; lia). unfold apex. lia.
  - rewrite Nat.add_succ_r. unfold layerSize in *. cbn [layerShape]. unfold nextLayer.
    rewrite IH1. cbn [Z.sub Z.eqb Z.add Z.opp Z.pos_sub fst snd]. split; [reflexivity|].
    rewrite <- IH2. ring.
Qed.

(** X16: the number of slots that the two searches give to a layer.  When
    the bottom layer has n >= 1 slots, layer k has [max 1 (n - k)] slots:
    one less per layer up to the apex, and one slot in every layer above it,
    at the x-coordinate of the apex.  When the bottom layer has n <= 0 slots
    the number is [n - k], never reset to 1, and no layer has a slot. *)
Theorem layerSize_pyramid (g : Geometry) (layer : nat) :
  ((1 <= initialNumParticlesInLayer g)%Z ->
   layerSize g layer = Z.max 1 (initialNumParticlesInLayer g - Z.of_nat layer)
   /\ ((initialNumParticlesInLayer g - 1 <= Z.of_nat layer)%Z ->
       Vector2.x (slot g layer 0)
       == Vector2.x (slot g (Z.to_nat (initialNumParticlesInLayer g - 1)) 0)))
  /\ ((initialNumParticlesInLayer g <= 0)%Z ->
      layerSize g layer = (initialNumParticlesInLayer g - Z.of_nat layer)%Z).
Proof.
  split.
  - intro Hn.
    destruct (Z_lt_le_dec (Z.of_nat layer) (initialNumParticlesInLayer g)) as [Hlt|Hge].
    + split; [rewrite pyramid_layerSize by exact Hlt; lia|].
      intro H. assert (layer = Z.to_nat (initialNumParticlesInLayer g - 1)) as <- by lia.
      reflexivity.
    + pose proof (layerShape_above_apex g
                    (layer - Z.to_nat (initialNumParticlesInLayer g - 1)) Hn) as H.
      cbn zeta in H.
      replace (Z.to_nat (initialNumParticlesInLayer g - 1)
               + (layer - Z.to_nat (initialNumParticlesInLayer g - 1)))%nat
        with layer in H by lia.
      destruct H as [H1 H2]. split; [rewrite H1; lia|].
      intros _. unfold slot, slotLocation. cbn [Vector2.x]. rewrite H2. reflexivity.
  - intro Hn. unfold layerSize. induction layer as [|layer IH]; [cbn; lia|].
    cbn [layerShape]. unfold nextLayer. rewrite IH.
    destruct (_ =? 0)%Z eqn:E; cbn [snd]; lia.
Qed.

Lemma pyramid_offset g (L : nat) :
  (Z.of_nat L < initialNumParticlesInLayer g)%Z ->
  fst (layerShape g L) == initialOffsetFromBucketEdge g + inject_Z (Z.of_nat L) * _sphereRadius g.
Proof.
  induction L as [|L IH]; intro H.
  - cbn. ring.
  - destruct (pyramid_layerShape_S g L H) as [E _]. rewrite E, IH by lia.
    rewrite Nat2Z.inj_succ. unfold Z.succ. rewrite inject_Z_plus. ring.
Qed.

Lemma inject_Z_minus (a b : Z) : inject_Z (a - b) == inject_Z a - inject_Z b.
Proof. unfold Z.sub. rewrite inject_Z_plus, inject_Z_opp. reflexivity. Qed.

Lemma supporting_integers (d m : Z) :
  (1 <= d)%Z ->
  (62500 * ((2 * m - d) * (2 * m - d)) + 187489 * (d * d) < 562500)%Z
  <-> d = 1%Z /\ (m = 0%Z \/ m = 1%Z).
Proof.
  intro Hd. split.
  - intro H. pose proof (Z.square_nonneg (2 * m - d)) as Hsq.
    assert (d = 1%Z).
    { destruct (Z_le_gt_dec 2 d) as [H2|H2]; [|lia].
      assert (4 <= d * d)%Z by (apply (Z.mul_le_mono_nonneg 2 d 2 d); lia). lia. }
    subst d. split; [reflexivity|].
    destruct (Z_le_gt_dec 2 m) as [H2|H2].
    + assert (9 <= (2 * m - 1) * (2 * m - 1))%Z
        by (apply (Z.mul_le_mono_nonneg 3 (2 * m - 1) 3 (2 * m - 1)); lia). lia.
    + destruct (Z_le_gt_dec m (-1)) as [H3|H3]; [|lia].
      assert (9 <= (1 - 2 * m) * (1 - 2 * m))%Z
        by (apply (Z.mul_le_mono_nonneg 3 (1 - 2 * m) 3 (1 - 2 * m)); lia).
      assert ((1 - 2 * m) * (1 - 2 * m) = (2 * m - 1) * (2 * m - 1))%Z by ring. lia.
  - intros [-> [-> | ->]]; lia.
Qed.

(** The slots of the pyramid from which a slot of the pyramid is supported, by
    the test of [countSupportingParticles]. *)
Lemma slot_below_supports (g : Geometry) (layer layer' : nat) (j k : Z) :
  0 < _sphereRadius g ->
  (Z.of_nat (S layer) < initialNumParticlesInLayer g)%Z ->
  (Z.of_nat layer' < initialNumParticlesInLayer g)%Z ->
  (Qltb (Vector2.y (slot g layer' k)) (Vector2.y (slot g (S layer) j))
   && Vector2.within (slot g layer' k) (slot g (S layer) j) (_sphereRadius g * 3) = true
   <-> layer' = layer /\ (k = j \/ k = (j + 1)%Z)).
Proof.
  intros Hr HL HL'.
  unfold Vector2.within, Vector2.distanceSquared.
  unfold slot, slotLocation, getYPositionForLayer. cbn [Vector2.x Vector2.y].
  rewrite !andb_true_iff, !Qltb_lt.
  rewrite (pyramid_offset g (S layer) HL), (pyramid_offset g layer' HL').
  set (r := _sphereRadius g) in *.
  set (o := initialOffsetFromBucketEdge g).
  set (e := Vector2.x (position g) - size_width g / 2).
  set (b := Vector2.y (position g) + _verticalParticleOffset g).
  set (d := (Z.of_nat (S layer) - Z.of_nat layer')%Z).
  set (n := (k - j)%Z).
  assert (Ey : b + inject_Z (Z.of_nat layer') * r * 2 * (433 # 500)
               - (b + inject_Z (Z.of_nat (S layer)) * r * 2 * (433 # 500))
               == - (inject_Z d * (433 # 250)) * r).
  { unfold d. rewrite inject_Z_minus. ring. }
  assert (Ex : e + (o + inject_Z (Z.of_nat layer') * r) + inject_Z k * 2 * r
               - (e + (o + inject_Z (Z.of_nat (S layer)) * r) + inject_Z j * 2 * r)
               == inject_Z (2 * n - d) * r).
  { unfold d, n. rewrite !inject_Z_minus, inject_Z_mult, inject_Z_minus.
    change (inject_Z 2) with 2. ring. }
  assert (Hrr : 0 < r * r) by nra.
  assert (Ed : (inject_Z (2 * n - d) * r) * (inject_Z (2 * n - d) * r)
               + (- (inject_Z d * (433 # 250)) * r) * (- (inject_Z d * (433 # 250)) * r)
               == inject_Z (62500 * ((2 * n - d) * (2 * n - d)) + 187489 * (d * d))
                  * ((r * r) / 62500)).
  { rewrite inject_Z_plus, !inject_Z_mult. change (inject_Z 62500) with 62500.
    change (inject_Z 187489) with 187489. field. }
  assert (E9 : r * 3 * (r * 3) == inject_Z 562500 * ((r * r) / 62500)).
  { change (inject_Z 562500) with 562500. field. }
  assert (Hq : 0 < (r * r) / 62500) by (apply Qlt_shift_div_l; lra).
  assert (Hlow : b + inject_Z (Z.of_nat layer') * r * 2 * (433 # 500)
                 < b + inject_Z (Z.of_nat (S layer)) * r * 2 * (433 # 500)
                 <-> (1 <= d)%Z).
  { assert (Es : b + inject_Z (Z.of_nat (S layer)) * r * 2 * (433 # 500)
                 - (b + inject_Z (Z.of_nat layer') * r * 2 * (433 # 500))
                 == inject_Z d * (r * (433 # 250))).
    { unfold d. rewrite inject_Z_minus. ring. }
    assert (Hp : 0 < r * (433 # 250)) by lra.
    split.
    - intro H. assert (Hd0 : 0 < inject_Z d * (r * (433 # 250))) by lra.
      assert (Hd1 : 0 < inject_Z d).
      { destruct (Qlt_le_dec 0 (inject_Z d)) as [H0|H0]; [exact H0|].
        exfalso. assert (inject_Z d * (r * (433 # 250)) <= 0 * (r * (433 # 250))).
        { apply Qmult_le_compat_r; lra. }
        lra. }
      change 0 with (inject_Z 0) in Hd1. rewrite <- Zlt_Qlt in Hd1. lia.
    - intro H. assert (Hd1 : 1 <= inject_Z d).
      { change 1 with (inject_Z 1). now rewrite <- Zle_Qle. }
      assert (1 * (r * (433 # 250)) <= inject_Z d * (r * (433 # 250))).
      { apply Qmult_le_compat_r; lra. }
      lra. }
  rewrite Ex, Ey, Ed, E9, Hlow.
  assert (Hm : inject_Z (62500 * ((2 * n - d) * (2 * n - d)) + 187489 * (d * d))
               * ((r * r) / 62500) < inject_Z 562500 * ((r * r) / 62500)
               <-> (62500 * ((2 * n - d) * (2 * n - d)) + 187489 * (d * d) < 562500)%Z).
  { rewrite Zlt_Qlt. split; intro H.
    - apply Qmult_lt_r in H; assumption.
    - apply Qmult_lt_r; assumption. }
  rewrite Hm. split.
  - intros (H1 & _ & H2). apply (supporting_integers d n H1) in H2.
    unfold d, n in H2. lia.
  - intros [-> Hk].
    assert (Hd1 : d = 1%Z) by (unfold d; lia).
    split; [lia|]. split; [lra|]. apply (supporting_integers d n); [lia|].
    unfold n. lia.
Qed.

(** X17: for a positive sphere radius, within the pyramid, a member whose
    destination is slot [k] of layer [layer'] supports slot [j] of layer
    [layer + 1] in the sense of [countSupportingParticles] (strictly lower
    and less than [3 * sphereRadius] away) if and only if it is in the layer
    directly below, in slot [j] or [j + 1]. *)
Theorem supports_iff_directly_below (w : World) (m : ParticleId) (layer layer' : nat)
    (j k : Z) :
  0 < _sphereRadius (self w) ->
  (Z.of_nat (S layer) < initialNumParticlesInLayer (self w))%Z ->
  (Z.of_nat layer' < initialNumParticlesInLayer (self w))%Z ->
  destination w m = slot (self w) layer' k ->
  (supports w (slot (self w) (S layer) j) m = true
   <-> layer' = layer /\ (k = j \/ k = (j + 1)%Z)).
Proof.
  intros Hr HL HL' Hd. unfold supports. rewrite Hd.
  now apply slot_below_supports.
Qed.

Lemma supports_iff_directly_below_witness :
  supports pyramid5 (slot (self pyramid5) 1 0) 2%nat = true
  <-> 0%nat = 0%nat /\ (1 = 0 \/ 1 = 0 + 1)%Z.
Proof.
  apply (supports_iff_directly_below pyramid5 2%nat 0 0 0 1); vm_compute; reflexivity.
Defined.

Lemma equals_slot_pyramid g (L L' : nat) k k' :
  0 < _sphereRadius g ->
  (Z.of_nat L < initialNumParticlesInLayer g)%Z ->
  (Z.of_nat L' < initialNumParticlesInLayer g)%Z ->
  (Vector2.equals (slot g L k) (slot g L' k') = true <-> L = L' /\ k = k').
Proof.
  intros Hr HL HL'. rewrite equals_true.
  unfold slot, slotLocation, getYPositionForLayer. cbn [Vector2.x Vector2.y].
  split.
  - intros [Hx Hy].
    assert (E : inject_Z (Z.of_nat L) == inject_Z (Z.of_nat L')).
    { apply (layer_height_injective (_sphereRadius g)); [exact Hr|]. lra. }
    assert (L = L') as <-.
    { assert (Z.of_nat L = Z.of_nat L') by (apply inject_Z_injective; exact E). lia. }
    split; [reflexivity|].
    assert (E2 : inject_Z k == inject_Z k').
    { assert (H : (inject_Z k - inject_Z k') * (2 * _sphereRadius g) == 0).
      { assert (R : (inject_Z k - inject_Z k') * (2 * _sphereRadius g)
                    == inject_Z k * 2 * _sphereRadius g - inject_Z k' * 2 * _sphereRadius g)
          by ring.
        rewrite R. lra. }
      apply Qmult_integral in H. destruct H as [H|H]; lra. }
    apply inject_Z_injective. exact E2.
  - intros [<- <-]. split; reflexivity.
Qed.

Lemma equals_compat a b c :
  Vector2.equals a b = true -> Vector2.equals c a = Vector2.equals c b.
Proof.
  intro H. apply equals_true in H. destruct H as [Hx Hy]. unfold Vector2.equals.
  f_equal; apply Qeq_bool_eq_iff; [rewrite Hx|rewrite Hy]; reflexivity.
Qed.

Lemma isPositionOpen_for_equals_compat w a b l :
  Vector2.equals a b = true -> isPositionOpen_for w a l = isPositionOpen_for w b l.
Proof.
  intro H. induction l as [|p l IH]; [reflexivity|]. cbn [isPositionOpen_for].
  now rewrite (equals_compat a b _ H), IH.
Qed.

Lemma countSupporting_below w (layer : nat) (j : Z) (l : list ParticleId) :
  0 < _sphereRadius (self w) ->
  (Z.of_nat (S layer) < initialNumParticlesInLayer (self w))%Z ->
  onPyramid w l ->
  distinctDestinations_for w l ->
  length (filter (supports w (slot (self w) (S layer) j)) l)
  = (occupiedIn w (slot (self w) layer j) l
     + occupiedIn w (slot (self w) layer (j + 1)) l)%nat.
Proof.
  intros Hr HL. induction l as [|m l IH]; intros Hon Hd; [reflexivity|].
  cbn in Hd. destruct Hd as [Hm Hd].
  assert (Hon' : onPyramid w l) by (intros q Hq; apply Hon; now right).
  specialize (IH Hon' Hd).
  destruct (Hon m (or_introl eq_refl)) as (L' & k & HL' & Edest).
  assert (HLl : (Z.of_nat layer < initialNumParticlesInLayer (self w))%Z) by lia.
  assert (Hs : supports w (slot (self w) (S layer) j) m = true
               <-> L' = layer /\ (k = j \/ k = (j + 1)%Z)).
  { unfold supports. rewrite Edest. now apply slot_below_supports. }
  pose proof (equals_slot_pyramid (self w) L' layer k j Hr HL' HLl) as E1.
  pose proof (equals_slot_pyramid (self w) L' layer k (j + 1) Hr HL' HLl) as E2.
  rewrite <- Edest in E1, E2.
  pose proof (isPositionOpen_for_equals_compat w (destination w m)
                (slot (self w) layer j) l) as C1.
  pose proof (isPositionOpen_for_equals_compat w (destination w m)
                (slot (self w) layer (j + 1)) l) as C2.
  unfold occupiedIn in *. cbn [filter isPositionOpen_for].
  set (ea := Vector2.equals (destination w m) (slot (self w) layer j)) in *.
  set (eb := Vector2.equals (destination w m) (slot (self w) layer (j + 1))) in *.
  destruct (supports w (slot (self w) (S layer) j) m) eqn:Es;
    destruct ea eqn:A; destruct eb eqn:B; cbn [length];
    try (exfalso; intuition (try discriminate; lia)).
  - rewrite IH, <- (C1 eq_refl), Hm. lia.
  - rewrite IH, <- (C2 eq_refl), Hm. lia.
  - exact IH.
Qed.

(** X18: for a positive sphere radius, when the destinations of the members
    are slots of the pyramid and no two of them are equal,
    [countSupportingParticles] of slot [j] of layer [layer + 1] is the number
    of occupied slots among the slots [j] and [j + 1] of layer [layer]. *)
Theorem countSupportingParticles_counts_slots_below (w : World) (layer : nat) (j : Z) :
  0 < _sphereRadius (self w) ->
  (Z.of_nat (S layer) < initialNumParticlesInLayer (self w))%Z ->
  onPyramid w (_particles w) ->
  distinctDestinations w ->
  countSupportingParticles w (slot (self w) (S layer) j)
  = ((if isPositionOpen w (slot (self w) layer j) then 0 else 1)
     + (if isPositionOpen w (slot (self w) layer (j + 1)) then 0 else 1))%nat.
Proof.
  intros Hr HL Hon Hd. rewrite countSupportingParticles_filter.
  now apply countSupporting_below.
Qed.

Lemma countSupportingParticles_counts_slots_below_witness :
  countSupportingParticles pyramid5 (slot (self pyramid5) 1 1)
  = ((if isPositionOpen pyramid5 (slot (self pyramid5) 0 1) then 0 else 1)
     + (if isPositionOpen pyramid5 (slot (self pyramid5) 0 (1 + 1)) then 0 else 1))%nat.
Proof.
  apply (countSupportingParticles_counts_slots_below pyramid5 0 1).
  - vm_compute. reflexivity.
  - vm_compute. reflexivity.
  - intros m Hm. vm_compute in Hm.
    destruct Hm as [<-|[<-|[<-|[<-|[<-|[]]]]]].
    + exists 0%nat, 0%Z. split; vm_compute; reflexivity.
    + exists 0%nat, 1%Z. split; vm_compute; reflexivity.
    + exists 0%nat, 2%Z. split; vm_compute; reflexivity.
    + exists 0%nat, 3%Z. split; vm_compute; reflexivity.
    + exists 1%nat, 0%Z. split; vm_compute; reflexivity.
  - vm_compute. auto 10.
Defined.

(** ** The constructor *)

(** X19: the constructor keeps a vertical offset given in the options
    unless it is 0: an offset of 0, like no offset, is replaced by
    [-sphereRadius * 0.4], so that the vertical offset of a bucket is 0 only
    if its sphere radius is 0. *)
Theorem SphereBucket_verticalParticleOffset (options : Options) :
  let g := SphereBucket options in
  (forall v, opt_verticalParticleOffset options = Some v -> ~ v == 0 ->
             _verticalParticleOffset g = v)
  /\ (forall v, opt_verticalParticleOffset options = Some v -> v == 0 ->
                _verticalParticleOffset g = - _sphereRadius g * (2 # 5))
  /\ (opt_verticalParticleOffset options = None ->
      _verticalParticleOffset g = - _sphereRadius g * (2 # 5))
  /\ (_verticalParticleOffset g == 0 -> _sphereRadius g == 0).
Proof.
  cbn zeta. unfold SphereBucket. cbn [_verticalParticleOffset _sphereRadius].
  destruct (opt_verticalParticleOffset options) as [v|]; cbn [or_default].
  - destruct (Qeq_bool v 0) eqn:E.
    + apply Qeq_bool_iff in E. split; [|split; [|split]].
      * intros v' [= <-] H. contradiction.
      * now intros v' [= <-] _.
      * discriminate.
      * intro H. lra.
    + assert (N : ~ v == 0) by (intro H; apply Qeq_bool_iff in H; congruence).
      split; [|split; [|split]].
      * now intros v' [= <-] _.
      * intros v' [= <-] H. contradiction.
      * discriminate.
      * intro H. contradiction.
  - split; [|split; [|split]]; try discriminate.
    + reflexivity.
    + intro H. lra.
Qed.

(** ** The stacked bucket: slots and their supporters *)





















(** ** The order of the open locations *)





(** ** The relayout ends within the pyramid *)














(** ** The locations that the nearest-open search admits *)







(** ** No dangling member after any sequence of calls *)




(** ** The extraction returns the nearest member *)




